(** * xp-scheduler: the task class and the scheduler, embedded in Rocq

    The development follows the two classes of the repository:

    - [Task] (lib/task.js): the recurrence options of a task, each one a
      property with a [set] and a [validate] function, and the recurrence
      rule ([adaptee]) handed to the rrule package;
    - [Scheduler] (lib/index.js): the registry of tasks, the map of timer
      handles, the poll tick and the timer callback.

    The host (clock, one-shot timers) and the two packages the code calls
    (expandjs, rrule) are not part of the repository; they are modelled in
    [JS], [XP] and [RRule] by what the code relies on. *)

From Stdlib Require Import Ascii String ZArith Lia.
From stdpp Require Import base option list gmap strings fin_maps.

#[local] Set Warnings "-register-all".
Local Open Scope string_scope.
Local Open Scope list_scope.
Local Open Scope Z_scope.

(** ** JavaScript values *)

Module JS.

(** The values an options object can hold.  Numbers are split by what the
    validators look at: integers, other finite numbers, NaN. *)
Inductive value :=
  | VUndefined
  | VNull
  | VBool (b : bool)
  | VNum (n : Z)
  | VFrac
  | VNaN
  | VStr (s : string)
  | VDate (ms : Z)
  | VArray (l : list value)
  | VFunction (name : string)
  | VObject.

#[global] Instance value_inhabited : Inhabited value := populate VUndefined.

(** An object literal used as a record of optional fields; a missing key
    reads as [VUndefined] (total lookup [!!!]). *)
Abbreviation obj := (gmap string value).

Definition truthy (v : value) : bool :=
  match v with
  | VUndefined | VNull | VNaN => false
  | VBool b => b
  | VNum n => negb (n =? 0)
  | VStr s => negb (String.eqb s EmptyString)
  | VFrac | VDate _ | VArray _ | VFunction _ | VObject => true
  end.

(** [a || b] *)
Definition or (a b : value) : value := if truthy a then a else b.

(** [a !== b] on the two strings the code compares *)
Definition strict_ne_str (a : value) (s : string) : bool :=
  match a with
  | VStr s' => negb (String.eqb s' s)
  | _ => true
  end.

Definition as_num (v : value) : option Z :=
  match v with VNum n => Some n | _ => None end.

Definition as_date (v : value) : option Z :=
  match v with VDate ms => Some ms | _ => None end.

Definition as_str (v : value) : option string :=
  match v with VStr s => Some s | _ => None end.

End JS.

Export JS.

Infix "<||>" := JS.or (at level 50, left associativity).

(** ** The expandjs helpers the two classes call

    The predicates are those of expandjs by their names; the second
    argument [true] of [isInt] and [isString] asks for a value that is not
    negative, respectively not empty. *)

Module XP.

Definition isDefined (v : value) : bool :=
  match v with VUndefined => false | _ => true end.

Definition isNull (v : value) : bool :=
  match v with VNull => true | _ => false end.

Definition isInt (v : value) : bool :=
  match v with VNum _ => true | _ => false end.

(** [XP.isInt(val, true)]: an integer that is not negative *)
Definition isInt_notNegative (v : value) : bool :=
  match v with VNum n => 0 <=? n | _ => false end.

(** [XP.isString(val, true)]: a string that is not empty *)
Definition isString_notEmpty (v : value) : bool :=
  match v with VStr s => negb (String.eqb s EmptyString) | _ => false end.

Definition isDate (v : value) : bool :=
  match v with VDate _ => true | _ => false end.

Definition isArray (v : value) : bool :=
  match v with VArray _ => true | _ => false end.

Definition digit (c : ascii) : option Z :=
  let n := Z.of_nat (nat_of_ascii c) in
  if (48 <=? n) && (n <=? 57) then Some (n - 48) else None.

Definition two_digits (a b : ascii) (bound : Z) : option Z :=
  x ← digit a; y ← digit b;
  let n := 10 * x + y in
  if n <=? bound then Some n else None.

(** Modelled from the spec: [XP.timeRegex], a constant of expandjs, is
    the fixed format [HH:mm[:ss]] of a time of day.  This is
    [val.match(XP.timeRegex)]: the groups 1, 2 and 4, hour, minute and
    second (group 4 is missing without seconds). *)
Definition timeRegex_match (s : string) : option (Z * Z * option Z) :=
  match String.list_ascii_of_string s with
  | [h1; h2; c1; m1; m2] =>
      if Ascii.eqb c1 ":"%char then
        h ← two_digits h1 h2 23; m ← two_digits m1 m2 59; Some (h, m, None)
      else None
  | [h1; h2; c1; m1; m2; c2; s1; s2] =>
      if Ascii.eqb c1 ":"%char && Ascii.eqb c2 ":"%char then
        h ← two_digits h1 h2 23; m ← two_digits m1 m2 59;
        sec ← two_digits s1 s2 59; Some (h, m, Some sec)
      else None
  | _ => None
  end.

Definition isTime (v : value) : bool :=
  match v with
  | VStr s => bool_decide (is_Some (timeRegex_match s))
  | _ => false
  end.

(** [XP.ValidationError(key, type)] *)
Inductive error := ValidationError (key : string) (expected : string).

(** A computation that may throw: the error, or the result. *)
Abbreviation result A := (sum error A).

Definition bind {A B} (m : result A) (k : A → result B) : result B :=
  match m with
  | inl e => inl e
  | inr a => k a
  end.

(** A property of an [XP.Class]: its name, the value [set] returns from
    the field's current value and the value written, and the type name
    [validate] returns for a value it refuses. *)
Record property := Property {
  p_name : string;
  p_set : value → value → value;
  p_validate : value → option string
}.

(** [this.name = val] for a property of an [XP.Class] (expandjs): [set]
    is called with the value written and returns the value to store;
    [validate] is called with that value; the class throws the validation
    error if it is refused and stores it otherwise. *)
Definition assign (p : property) (this : obj) (val : value) : result obj :=
  let v := p_set p (this !!! p_name p) val in
  match p_validate p v with
  | Some ty => inl (ValidationError (p_name p) ty)
  | None => inr (<[p_name p := v]> this)
  end.

(** [set(val) { return XP.isDefined(this.x) ? this.x : val; }] *)
Definition set_if_undefined (cur val : value) : value :=
  if isDefined cur then cur else val.

(** [validate(val) { return cond && 'type'; }] *)
Definition refuse_if (cond : bool) (ty : string) : option string :=
  if cond then Some ty else None.

End XP.

Notation "'do' x <- m ; k" := (XP.bind m (fun x => k))
  (at level 10, x name, m at level 100, k at level 200).

(** ** The rrule package, as far as the task class uses it *)

Module RRule.

(** [RRule.YEARLY], ..., [RRule.SECONDLY] *)
Inductive Freq := YEARLY | MONTHLY | WEEKLY | DAILY | HOURLY | MINUTELY | SECONDLY.

(** [RRule.MO], ..., [RRule.SU] *)
Inductive Weekday := MO | TU | WE | TH | FR | SA | SU.

(** [RRule[name]] for the names the two tables of the task class hold *)
Definition freq_of_name (name : string) : option Freq :=
  (list_to_map [("YEARLY", YEARLY); ("MONTHLY", MONTHLY); ("WEEKLY", WEEKLY);
                ("DAILY", DAILY); ("HOURLY", HOURLY); ("MINUTELY", MINUTELY);
                ("SECONDLY", SECONDLY)] : gmap string Freq) !! name.

Definition weekday_of_name (name : string) : option Weekday :=
  (list_to_map [("MO", MO); ("TU", TU); ("WE", WE); ("TH", TH); ("FR", FR);
                ("SA", SA); ("SU", SU)] : gmap string Weekday) !! name.

(** The object given to [new RRule(...)].  A rule is determined by it. *)
Record options := Options {
  freq : option Freq;
  interval : option Z;
  count : option Z;
  byweekday : list Weekday;
  bymonth : option Z;
  bymonthday : option Z;
  byhour : option Z;
  byminute : option Z;
  bysecond : option Z;
  bysetpos : option Z;
  dtstart : Z;
  until : option Z
}.

(** How a rule expands into instants is the package's business (calendar
    arithmetic); the development takes it as a parameter: the series of
    occurrences of a rule, as [rule.all()] lists them. *)
Abbreviation library := (options → list Z).

(** [rule.after(dt)]: the first occurrence of the series that is strictly
    later than [dt], or null.  The query reads the rule; nothing is
    written. *)
Definition after (lib : library) (rule : options) (dt : Z) : option Z :=
  List.find (λ d, dt <? d) (lib rule).

(** The package's contract for [count]: the series has at most that many
    occurrences. *)
Definition honours_count (lib : library) : Prop :=
  ∀ rule n, count rule = Some n → (length (lib rule) ≤ Z.to_nat n)%nat.

(** *** The series of the rules that need no calendar

    A rule without any [by...] filter whose frequency is a fixed number of
    milliseconds repeats every [interval] periods from [dtstart]; a rule
    without filter and with [count = 1] has [dtstart] as its only
    occurrence whatever its frequency.  [until] cuts the series.  This
    instance of the parameter is used to run the classes on concrete
    rules of these two kinds; it says nothing (the empty series) about
    the others. *)

Definition period (f : Freq) : option Z :=
  match f with
  | SECONDLY => Some 1000
  | MINUTELY => Some 60000
  | HOURLY => Some 3600000
  | DAILY | WEEKLY | MONTHLY | YEARLY => None
  end.

Definition unfiltered (rule : options) : bool :=
  bool_decide (byweekday rule = []) &&
  bool_decide (bymonth rule = None) && bool_decide (bymonthday rule = None) &&
  bool_decide (byhour rule = None) && bool_decide (byminute rule = None) &&
  bool_decide (bysecond rule = None) && bool_decide (bysetpos rule = None).

Definition not_after_until (rule : options) (d : Z) : bool :=
  match until rule with
  | Some u => d <=? u
  | None => true
  end.

Definition plain_series (rule : options) : list Z :=
  match freq rule, count rule with
  | Some f, Some n =>
      if unfiltered rule then
        match period f with
        | Some p =>
            List.filter (not_after_until rule)
              (List.map (λ k, dtstart rule + k * default 1 (interval rule) * p)
                        (seqZ 0 n))
        | None =>
            if n =? 1 then List.filter (not_after_until rule) [dtstart rule]
            else []
        end
      else []
  | _, _ => []
  end.

End RRule.

(** ** lib/task.js: the task class *)

Module Task.

Import XP.

(** The frozen tables of the class. *)
Definition days : gmap string string :=
  list_to_map [("mo", "MO"); ("tu", "TU"); ("we", "WE"); ("th", "TH");
               ("fr", "FR"); ("sa", "SA"); ("su", "SU")].

Definition frequencies : gmap string string :=
  list_to_map [("daily", "DAILY"); ("hourly", "HOURLY");
               ("minutely", "MINUTELY"); ("monthly", "MONTHLY");
               ("precise", "YEARLY"); ("secondly", "SECONDLY");
               ("weekly", "WEEKLY"); ("yearly", "YEARLY")].

Definition weeks : gmap string Z :=
  list_to_map [("first", 1); ("second", 2); ("third", 3); ("fourth", 4);
               ("last", -1)].

(** [this.table[val]], for the entries the table itself holds and a key
    that is a string (names inherited from the prototype of object
    literals and keys of other types are left out). *)
Definition in_table {A} (table : gmap string A) (val : value) : option A :=
  key ← as_str val; table !! key.

Definition listed {A} (table : gmap string A) (val : value) : bool :=
  bool_decide (is_Some (in_table table val)).

(** [val < k] and [val > k] for a value already known to be an integer *)
Definition below (val : value) (k : Z) : bool :=
  match val with VNum n => n <? k | _ => false end.

Definition above (val : value) (k : Z) : bool :=
  match val with VNum n => k <? n | _ => false end.

(** [val.every(val => this.days[val])] *)
Definition every_day (val : value) : bool :=
  match val with
  | VArray l => forallb (listed days) l
  | _ => false
  end.

(** *** The properties, in the order of the file *)

Definition endDate : property :=
  Property "endDate" set_if_undefined
    (λ val, refuse_if (negb (isNull val) && negb (isDate val)) "Date").

Definition frequency : property :=
  Property "frequency" JS.or
    (λ val, refuse_if (negb (listed frequencies val)) "string").

Definition interval : property :=
  Property "interval" set_if_undefined
    (λ val, refuse_if (negb (isNull val) && (negb (isInt val) || below val 1))
                      "number").

Definition iterations : property :=
  Property "iterations" set_if_undefined
    (λ val, refuse_if (negb (isNull val) && (negb (isInt val) || below val 1))
                      "number").

Definition month : property :=
  Property "month" set_if_undefined
    (λ val, refuse_if (negb (isNull val) &&
                       (negb (isInt val) || below val 1 || above val 12))
                      "number").

Definition monthDay : property :=
  Property "monthDay" set_if_undefined
    (λ val, refuse_if (negb (isNull val) &&
                       (negb (isInt val) || below val 1 || above val 31))
                      "number").

Definition startDate : property :=
  Property "startDate" set_if_undefined
    (λ val, refuse_if (negb (isNull val) && negb (isDate val)) "Date").

Definition startTime : property :=
  Property "startTime" set_if_undefined
    (λ val, refuse_if (negb (isNull val) && negb (isTime val)) "string").

Definition week : property :=
  Property "week" set_if_undefined
    (λ val, refuse_if (negb (isNull val) && negb (listed weeks val)) "string").

Definition weekDay : property :=
  Property "weekDay" set_if_undefined
    (λ val, refuse_if (negb (isNull val) && negb (listed days val)) "string").

Definition weekDays : property :=
  Property "weekDays" JS.or
    (λ val, refuse_if (negb (isArray val) || negb (every_day val)) "Array").

Definition properties : list property :=
  [endDate; frequency; interval; iterations; month; monthDay; startDate;
   startTime; week; weekDay; weekDays].

(** *** The constructor *)

(** The block "Setting" of [initialize]: eleven assignments, each through
    its property; [now] is what [new Date()] returns. *)
Definition initialize_fields (options : obj) (now : Z) : result obj :=
  do this <- assign endDate ∅ (options !!! "endDate" <||> VNull);
  do this <- assign frequency this (options !!! "frequency" <||> VStr "precise");
  do this <- assign interval this (options !!! "interval" <||> VNull);
  do this <- assign iterations this
               (if strict_ne_str (this !!! "frequency") "precise"
                then options !!! "iterations" <||> VNull
                else VNum 1);
  do this <- assign month this (options !!! "month" <||> VNull);
  do this <- assign monthDay this (options !!! "monthDay" <||> VNull);
  do this <- assign startDate this (options !!! "startDate" <||> VDate now);
  do this <- assign startTime this (options !!! "startTime" <||> VNull);
  do this <- assign week this (options !!! "week" <||> VNull);
  do this <- assign weekDay this (options !!! "weekDay" <||> VNull);
  do this <- assign weekDays this (options !!! "weekDays" <||> VArray []);
  inr this.

(** [this.startTime && this.startTime.match(XP.timeRegex)] *)
Definition time_groups (this : obj) : option (Z * Z * option Z) :=
  s ← as_str (this !!! "startTime");
  if truthy (VStr s) then timeRegex_match s else None.

(** [RRule[this.days[day]]] *)
Definition rrule_day (day : value) : option RRule.Weekday :=
  name ← in_table days day; RRule.weekday_of_name name.

(** The block "Adapting" of [initialize]: the object given to
    [new RRule(...)]. *)
Definition rule_of (this : obj) (now : Z) : RRule.options :=
  {| RRule.freq :=
       name ← in_table frequencies (this !!! "frequency");
       RRule.freq_of_name name;
     RRule.interval := as_num (this !!! "interval");
     RRule.count := as_num (this !!! "iterations");
     RRule.byweekday :=
       if truthy (this !!! "weekDay")
       then option_list (rrule_day (this !!! "weekDay"))
       else match this !!! "weekDays" with
            | VArray l => omap rrule_day l
            | _ => []
            end;
     RRule.bymonth := as_num (this !!! "month");
     RRule.bymonthday := as_num (this !!! "monthDay");
     RRule.byhour := '(h, _, _) ← time_groups this; Some h;
     RRule.byminute := '(_, m, _) ← time_groups this; Some m;
     RRule.bysecond := '(_, _, s) ← time_groups this; s;
     RRule.bysetpos :=
       if truthy (this !!! "week") then in_table weeks (this !!! "week")
       else None;
     RRule.dtstart := default now (as_date (this !!! "startDate"));
     RRule.until := as_date (this !!! "endDate") |}.

(** A constructed task: [fields] are the eleven properties, [adaptee] the
    rule.  The scheduler of lib/index.js reads two more members, [id] and
    [handler], of the task class it loads (lib/classes/Task.js). *)
Record t := Make {
  id : string;
  handler : string;
  options : obj;
  fields : obj;
  adaptee : RRule.options
}.

(** Modelled from the spec: the identity and the handler of a task, which
    the task class of lib/classes/Task.js adds and which is missing from
    the sources.  The identity is a string, generated ([fresh]) if the
    options give none; the handler is required.  The test on the
    identity is the one the older [schedule] makes on its [id]. *)
Definition identify (options : obj) (fresh : string) : result (string * string) :=
  do id <- match options !!! "id" with
           | VUndefined | VNull => inr fresh
           | VStr s => if isString_notEmpty (VStr s) then inr s
                       else inl (ValidationError "id" "string")
           | _ => inl (ValidationError "id" "string")
           end;
  do handler <- match options !!! "handler" with
                | VFunction h => inr h
                | _ => inl (ValidationError "handler" "Function")
                end;
  inr (id, handler).

(** [initialize(options)]: the fields, then the rule; a refused field
    throws. *)
Definition initialize (options : obj) (now : Z) : result (obj * RRule.options) :=
  do this <- initialize_fields options now;
  inr (this, rule_of this now).

(** [new Task(options, callback)]: the error goes to the callback. *)
Definition create (options : obj) (fresh : string) (now : Z) : result t :=
  do ih <- identify options fresh;
  do init <- initialize options now;
  inr (Make ih.1 ih.2 options init.1 init.2).

(** The getter [nextDate]: [this.adaptee.after(new Date())]. *)
Definition nextDate (lib : RRule.library) (task : t) (now : Z) : option Z :=
  RRule.after lib (adaptee task) now.

End Task.

(** ** lib/index.js: the scheduler *)

Module Scheduler.

Import XP.

(** What [setTimeout] returns. *)
Abbreviation handle := nat.

(** What a run of the scheduler does to the outside, in the order it does
    it: the reads of a task's [nextDate], the timers it sets and clears,
    the handlers it calls. *)
Inductive event :=
  | NextDate (id : string)
  | SetTimeout (h : handle) (id : string) (delay : Z)
  | ClearTimeout (h : handle)
  | Handler (id : string) (handler : string).

(** The four members of the scheduler, and the host it runs on: the
    one-shot timers that are set and have neither fired nor been cleared
    ([armed], each with the task its callback is bound to and the instant
    it is due), the next handle, the instant of the running callback and
    the events so far (latest last). *)
Record state := State {
  tasks : gmap string Task.t;
  timers : gmap string handle;
  latest : Z;
  interval : Z;
  armed : gmap handle (Task.t * Z);
  next_handle : handle;
  clock : Z;
  trace : list event
}.

(** *** The properties *)

Definition interval_property : property :=
  Property "interval" JS.or
    (λ val, refuse_if (negb (isInt_notNegative val)) "number").

Definition latest_property : property :=
  Property "latest" (λ _ val, val)
    (λ val, refuse_if (negb (isInt_notNegative val)) "number").

(** The constructor; [now] is what [Date.now()] returns.  The poll tick
    that [setInterval] starts is the action [Poll] below. *)
Definition initialize (options : obj) (now : Z) : result state :=
  do this <- assign latest_property ∅ (VNum now);
  do this <- assign interval_property this (options !!! "interval" <||> VNum 60000);
  inr {| tasks := ∅; timers := ∅;
         latest := default 0 (as_num (this !!! "latest"));
         interval := default 0 (as_num (this !!! "interval"));
         armed := ∅; next_handle := 0%nat; clock := now; trace := [] |}.

(** [this.interval = val] on a constructed scheduler *)
Definition set_interval (val : value) (σ : state) : result state :=
  do this <- assign interval_property {["interval" := VNum (interval σ)]} val;
  inr {| tasks := tasks σ; timers := timers σ; latest := latest σ;
         interval := default 0 (as_num (this !!! "interval"));
         armed := armed σ; next_handle := next_handle σ; clock := clock σ;
         trace := trace σ |}.

(** *** The host *)

Definition log (e : event) (σ : state) : state :=
  {| tasks := tasks σ; timers := timers σ; latest := latest σ;
     interval := interval σ; armed := armed σ;
     next_handle := next_handle σ; clock := clock σ;
     trace := trace σ ++ [e] |}.

(** [setTimeout(this._handleTimeout.bind(this, task), delay)] at [now] *)
Definition setTimeout (task : Task.t) (delay now : Z) (σ : state) : handle * state :=
  let h := next_handle σ in
  (h, {| tasks := tasks σ; timers := timers σ; latest := latest σ;
         interval := interval σ;
         armed := <[h := (task, now + delay)]> (armed σ);
         next_handle := S h; clock := clock σ;
         trace := trace σ ++ [SetTimeout h (Task.id task) delay] |}).

Definition clearTimeout (h : handle) (σ : state) : state :=
  {| tasks := tasks σ; timers := timers σ; latest := latest σ;
     interval := interval σ; armed := delete h (armed σ);
     next_handle := next_handle σ; clock := clock σ;
     trace := trace σ ++ [ClearTimeout h] |}.

Definition set_tasks (m : gmap string Task.t) (σ : state) : state :=
  {| tasks := m; timers := timers σ; latest := latest σ;
     interval := interval σ; armed := armed σ;
     next_handle := next_handle σ; clock := clock σ; trace := trace σ |}.

Definition set_timers (m : gmap string handle) (σ : state) : state :=
  {| tasks := tasks σ; timers := m; latest := latest σ;
     interval := interval σ; armed := armed σ;
     next_handle := next_handle σ; clock := clock σ; trace := trace σ |}.

Definition set_latest (now : Z) (σ : state) : state :=
  {| tasks := tasks σ; timers := timers σ; latest := now;
     interval := interval σ; armed := armed σ;
     next_handle := next_handle σ; clock := clock σ; trace := trace σ |}.

Definition set_clock (now : Z) (σ : state) : state :=
  {| tasks := tasks σ; timers := timers σ; latest := latest σ;
     interval := interval σ; armed := armed σ;
     next_handle := next_handle σ; clock := now; trace := trace σ |}.

Definition disarm (h : handle) (σ : state) : state :=
  {| tasks := tasks σ; timers := timers σ; latest := latest σ;
     interval := interval σ; armed := delete h (armed σ);
     next_handle := next_handle σ; clock := clock σ; trace := trace σ |}.

Section Methods.

Variable lib : RRule.library.

(** [remove(id, callback)]; the second component is what the callback
    receives: the error, or the data (always null). *)
Definition remove (id : value) (σ : state) : state * result value :=
  if negb (isString_notEmpty id) then (σ, inl (ValidationError "id" "string"))
  else
    let key := default EmptyString (as_str id) in
    let σ1 := match timers σ !! key with
              | Some h => clearTimeout h σ
              | None => σ
              end in
    (set_timers (delete key (timers σ1)) (set_tasks (delete key (tasks σ1)) σ1),
     inr VNull).

(** [_handleTask(task)].  A callback runs at one instant: [now] is
    what both reads of the clock return, [new Date()] in [nextDate]
    and [Date.now()] in the delay.  (On a host whose clock moves
    between the two reads the delay is shorter by what has passed;
    the timer is due at the same instant, the occurrence.) *)
Definition _handleTask (task : Task.t) (now : Z) (σ : state) : state :=
  let σ1 := log (NextDate (Task.id task)) σ in
  match Task.nextDate lib task now with
  | None => σ1
  | Some date =>
      if latest σ1 + interval σ1 <? date then σ1
      else
        let '(h, σ2) := setTimeout task (date - now) now σ1 in
        set_timers (<[Task.id task := h]> (timers σ2)) σ2
  end.

(** The handler is the last thing the callback does: what the handler
    itself asks of the scheduler is a later action of the run. *)
Definition _handleTimeout (task : Task.t) (now : Z) (σ : state) : state :=
  let σ1 := _handleTask task now σ in
  log (Handler (Task.id task) (Task.handler task)) σ1.

(** [Date.now()] is not negative, so the property [latest] accepts it.
    The keys are visited in the order of the map; the visit does not
    touch the registry. *)
Definition _handlePoll (now : Z) (σ : state) : state :=
  foldl (λ s entry, _handleTask entry.2 now s) (set_latest now σ)
        (map_to_list (tasks σ)).

(** [schedule(options, callback)]: the waterfall stops at the first
    error; [fresh] is the identity the task class generates when the
    options give none. *)
Definition schedule (options : obj) (fresh : string) (now : Z) (σ : state)
  : state * result Task.t :=
  match Task.create options fresh now with
  | inl error => (σ, inl error)
  | inr task =>
      match remove (VStr (Task.id task)) σ with
      | (σ1, inl error) => (σ1, inl error)
      | (σ1, inr _) =>
          let σ2 := set_tasks (<[Task.id task := task]> (tasks σ1)) σ1 in
          (_handleTask task now σ2, inr task)
      end
  end.

(** *** Runs

    The scheduler runs as callbacks of one thread: calls of [schedule]
    and [remove], poll ticks, and timers that fire.  Each callback runs
    at one instant of a clock that never goes back; an armed timer fires
    at its due instant or later, once. *)
Inductive action :=
  | Schedule (options : obj) (fresh : string)
  | Remove (id : value)
  | Poll
  | Fire (h : handle).

Definition fire (h : handle) (now : Z) (σ : state) : option state :=
  match armed σ !! h with
  | Some (task, due) =>
      if due <=? now then Some (_handleTimeout task now (disarm h σ))
      else None
  | None => None
  end.

Definition step (now : Z) (a : action) (σ : state) : option state :=
  if clock σ <=? now then
    let σ0 := set_clock now σ in
    match a with
    | Schedule options fresh => Some (schedule options fresh now σ0).1
    | Remove id => Some (remove id σ0).1
    | Poll => Some (_handlePoll now σ0)
    | Fire h => fire h now σ0
    end
  else None.

(** A run from a state: the actions with their instants, in order. *)
Fixpoint run (script : list (Z * action)) (σ : state) : option state :=
  match script with
  | [] => Some σ
  | (now, a) :: rest => σ' ← step now a σ; run rest σ'
  end.

Inductive reachable : state → Prop :=
  | reachable_init options now σ :
      initialize options now = inr σ → reachable σ
  | reachable_step σ now a σ' :
      reachable σ → step now a σ = Some σ' → reachable σ'.

End Methods.

End Scheduler.

(** ** lib/index.js of 2015: the scheduler before the task registry

    The older scheduler (the second source file) keeps one timer per
    identity in [scheduled]; only the two methods that set and clear a
    timer are embedded. *)

Module Legacy.

Import XP.

Abbreviation handle := nat.

Record state := State {
  scheduled : gmap string handle;
  armed : gmap handle (string * Z);
  next_handle : handle
}.

(** [unschedule(id)]: the value of [delete this.scheduled[id]] is [true]
    whether the key is there or not; a malformed [id] fails the assertion
    (no result). *)
Definition unschedule (id : value) (σ : state) : option (state * bool) :=
  if isString_notEmpty id then
    let key := default EmptyString (as_str id) in
    let armed' := match scheduled σ !! key with
                  | Some h => delete h (armed σ)
                  | None => armed σ
                  end in
    Some (State (delete key (scheduled σ)) armed' (next_handle σ), true)
  else None.

(** [schedule(date, id, handler)], with [fresh] for [XP.uuid()]: a timer
    already scheduled under the identity is cleared before the new one
    is set. *)
Definition schedule (date : Z) (id : value) (handler : string)
    (fresh : string) (now : Z) (σ : state) : option (state * string) :=
  if isNull id || negb (isDefined id) || isString_notEmpty id then
    let key := if truthy id then default EmptyString (as_str id)
               else fresh in
    σ1 ← (match scheduled σ !! key with
          | Some _ => fst <$> unschedule (VStr key) σ
          | None => Some σ
          end);
    let h := next_handle σ1 in
    Some (State (<[key := h]> (scheduled σ1))
                (<[h := (handler, now + (date - now))]> (armed σ1)) (S h), key)
  else None.

End Legacy.

(** * Statements

    The notions the theorems are stated with, and the concrete inputs they
    are run on. *)

Module Statements.

Import XP.

(** *** The task class *)

(** A value the validator accepts is one the setter keeps. *)
Definition keeps (p : property) : Prop :=
  ∀ cur val, p_validate p cur = None → p_set p cur val = cur.

(** [validate] alone, as the assignment runs it. *)
Definition check (p : property) (v : value) : result unit :=
  match p_validate p v with
  | Some ty => inl (ValidationError (p_name p) ty)
  | None => inr ()
  end.

(** What the constructor writes, read off the options: every field is
    written once, on an object that has none of them. *)
Definition written_frequency (options : obj) : value :=
  options !!! "frequency" <||> VStr "precise".

Definition written_iterations (options : obj) : value :=
  if strict_ne_str (written_frequency options) "precise"
  then options !!! "iterations" <||> VNull else VNum 1.

Definition written (options : obj) (now : Z) : obj :=
  <["weekDays" := options !!! "weekDays" <||> VArray []]>
  (<["weekDay" := options !!! "weekDay" <||> VNull]>
  (<["week" := options !!! "week" <||> VNull]>
  (<["startTime" := options !!! "startTime" <||> VNull]>
  (<["startDate" := options !!! "startDate" <||> VDate now]>
  (<["monthDay" := options !!! "monthDay" <||> VNull]>
  (<["month" := options !!! "month" <||> VNull]>
  (<["iterations" := written_iterations options]>
  (<["interval" := options !!! "interval" <||> VNull]>
  (<["frequency" := written_frequency options]>
  (<["endDate" := options !!! "endDate" <||> VNull]> ∅)))))))))).

Definition checks (options : obj) (now : Z) : result unit :=
  do _ <- check Task.endDate (options !!! "endDate" <||> VNull);
  do _ <- check Task.frequency (written_frequency options);
  do _ <- check Task.interval (options !!! "interval" <||> VNull);
  do _ <- check Task.iterations (written_iterations options);
  do _ <- check Task.month (options !!! "month" <||> VNull);
  do _ <- check Task.monthDay (options !!! "monthDay" <||> VNull);
  do _ <- check Task.startDate (options !!! "startDate" <||> VDate now);
  do _ <- check Task.startTime (options !!! "startTime" <||> VNull);
  do _ <- check Task.week (options !!! "week" <||> VNull);
  do _ <- check Task.weekDay (options !!! "weekDay" <||> VNull);
  do _ <- check Task.weekDays (options !!! "weekDays" <||> VArray []);
  inr ().

(** The time of day the options give, if any. *)
Definition written_time (options : obj) : option (Z * Z * option Z) :=
  s ← as_str (options !!! "startTime" <||> VNull);
  if truthy (VStr s) then timeRegex_match s else None.

Definition written_rule (options : obj) (now : Z) : RRule.options :=
  {| RRule.freq :=
       name ← Task.in_table Task.frequencies (written_frequency options);
       RRule.freq_of_name name;
     RRule.interval := as_num (options !!! "interval" <||> VNull);
     RRule.count := as_num (written_iterations options);
     RRule.byweekday :=
       if truthy (options !!! "weekDay" <||> VNull)
       then option_list (Task.rrule_day (options !!! "weekDay" <||> VNull))
       else match options !!! "weekDays" <||> VArray [] with
            | VArray l => omap Task.rrule_day l
            | _ => []
            end;
     RRule.bymonth := as_num (options !!! "month" <||> VNull);
     RRule.bymonthday := as_num (options !!! "monthDay" <||> VNull);
     RRule.byhour := '(h, _, _) ← written_time options; Some h;
     RRule.byminute := '(_, m, _) ← written_time options; Some m;
     RRule.bysecond := '(_, _, s) ← written_time options; s;
     RRule.bysetpos :=
       if truthy (options !!! "week" <||> VNull)
       then Task.in_table Task.weeks (options !!! "week" <||> VNull)
       else None;
     RRule.dtstart :=
       default now (as_date (options !!! "startDate" <||> VDate now));
     RRule.until := as_date (options !!! "endDate" <||> VNull) |}.

(** Two options objects that differ at most in [frequency] and
    [iterations]. *)
Definition same_but_recurrence (o1 o2 : obj) : Prop :=
  ∀ key, key ≠ "frequency" → key ≠ "iterations" → o1 !!! key = o2 !!! key.

(** What a sequence of reads of [nextDate] returns, one read at each
    instant of the list. *)
Definition reads (lib : RRule.library) (task : Task.t) (instants : list Z)
  : list (option Z) :=
  Task.nextDate lib task <$> instants.

(** The rule as a counter of reads: of [n + 1] reads the last returns
    nothing, whatever the instants. *)
Definition exhausted_after (lib : RRule.library) (task : Task.t) (n : nat) : Prop :=
  ∀ instants, length instants = S n → last (reads lib task instants) = Some None.

(** The rule has the one occurrence [occ]: a read before it returns it, a
    read from it on returns nothing. *)
Definition only_occurrence (lib : RRule.library) (task : Task.t) (occ : Z) : Prop :=
  ∀ instant, Task.nextDate lib task instant
             = if instant <? occ then Some occ else None.

(** *** The scheduler *)

Import Scheduler.

(** The task has a handle if its next occurrence, read at an instant from
    the clock on, is no later than the end of the window. *)
Definition covered (lib : RRule.library) (σ : state) (id : string)
    (task : Task.t) : Prop :=
  ∀ now d, clock σ ≤ now → Task.nextDate lib task now = Some d →
           d ≤ latest σ + interval σ → is_Some (timers σ !! id).

(** The part of the invariant that does not depend on the rules. *)
Record handles_ok (σ : state) : Prop := HandlesOk {
  ok_latest : 0 ≤ latest σ ≤ clock σ;
  ok_interval : 1 ≤ interval σ;
  ok_ids : ∀ id task, tasks σ !! id = Some task →
                      Task.id task = id ∧ id ≠ EmptyString;
  ok_timers : ∀ id h, timers σ !! id = Some h → (h < next_handle σ)%nat;
  ok_armed : ∀ h x, armed σ !! h = Some x → (h < next_handle σ)%nat;
  ok_due : ∀ h task due, armed σ !! h = Some (task, due) →
                         due ≤ latest σ + interval σ
}.

Definition invariant (lib : RRule.library) (σ : state) : Prop :=
  handles_ok σ ∧ ∀ id task, tasks σ !! id = Some task → covered lib σ id task.

(** The task has a timer of its own armed if its next occurrence, read
    at an instant from the clock on, is no later than the end of the
    window. *)
Definition armed_covered (lib : RRule.library) (σ : state) (task : Task.t)
  : Prop :=
  ∀ now d, clock σ ≤ now → Task.nextDate lib task now = Some d →
           d ≤ latest σ + interval σ →
           ∃ h due, armed σ !! h = Some (task, due).

(** What the armed timers are: the timer of a handle of the map is
    bound to a task of that identity, and every armed timer is due at
    an occurrence its task gave as its next date, at an instant that is
    not after the clock. *)
Record armed_ok (lib : RRule.library) (σ : state) : Prop := ArmedOk {
  ok_bound : ∀ id h task due, timers σ !! id = Some h →
                              armed σ !! h = Some (task, due) →
                              Task.id task = id;
  ok_read : ∀ h task due, armed σ !! h = Some (task, due) →
                          ∃ now, now ≤ clock σ ∧
                                 Task.nextDate lib task now = Some due
}.

Definition armed_invariant (lib : RRule.library) (σ : state) : Prop :=
  armed_ok lib σ ∧
  ∀ id task, tasks σ !! id = Some task → armed_covered lib σ task.

(** The timer-window invariant as an equivalence: a registered task has
    a handle exactly when its next occurrence is in the window. *)
Definition timer_window (lib : RRule.library) (σ : state) : Prop :=
  ∀ id task, tasks σ !! id = Some task →
    (is_Some (timers σ !! id) ↔
     ∃ d, Task.nextDate lib task (clock σ) = Some d ∧
          latest σ ≤ d ≤ latest σ + interval σ).

(** The events between two states of a run. *)
Definition emitted (σ σ' : state) : list event :=
  drop (length (trace σ)) (trace σ').

(** The handler is the first thing a timer callback does. *)
Definition handler_first (events : list event) : Prop :=
  ∃ id h rest, events = Handler id h :: rest.

(** What [_handleTask] emits after the read of [nextDate]. *)
Definition rearm (lib : RRule.library) (task : Task.t) (now : Z) (σ : state)
  : option Z :=
  d ← Task.nextDate lib task now;
  if latest σ + interval σ <? d then None else Some d.

(** The callback of [remove] tells whether the identity was registered:
    some reading of what it receives is that answer. *)
Definition reports_existence : Prop :=
  ∃ decode : result value → bool,
    ∀ σ id, id ≠ EmptyString →
      decode (remove (VStr id) σ).2 = bool_decide (is_Some (tasks σ !! id)).

(** The number of calls of the handler of a task in a trace. *)
Definition is_call (id : string) (e : event) : bool :=
  match e with
  | Handler id' _ => String.eqb id id'
  | _ => false
  end.

Definition handler_calls (id : string) (events : list event) : nat :=
  length (List.filter (is_call id) events).

(** The timers armed with a callback for the task: handle and due
    instant. *)
Definition armed_for (id : string) (σ : state) : list (handle * Z) :=
  (λ entry, (entry.1, entry.2.2)) <$>
    filter (λ entry, Task.id entry.2.1 = id) (map_to_list (armed σ)).

(** *** Concrete inputs *)

(** A scheduler constructed at instant 0 without options. *)
Definition initial : state := State ∅ ∅ 0 60000 ∅ 0%nat 0 [].

(** A task to run once, at instant 60000. *)
Definition once_options : obj :=
  list_to_map [("id", VStr "t"); ("handler", VFunction "h");
               ("startDate", VDate 60000)].

(** The same with an end date before the start. *)
Definition ended_options : obj :=
  <["endDate" := VDate 1000]> once_options.

(** A task for every minute from instant 0, three times. *)
Definition minutely_options : obj :=
  list_to_map [("id", VStr "t"); ("handler", VFunction "h");
               ("frequency", VStr "minutely"); ("iterations", VNum 3);
               ("startDate", VDate 0)].

(** A task for one occurrence of a minutely rule, at instant 60000. *)
Definition single_options : obj :=
  list_to_map [("id", VStr "t"); ("handler", VFunction "h");
               ("frequency", VStr "minutely"); ("iterations", VNum 1);
               ("startDate", VDate 60000)].

(** A task for every second from instant 0, three times. *)
Definition secondly_options : obj :=
  list_to_map [("id", VStr "t"); ("handler", VFunction "h");
               ("frequency", VStr "secondly"); ("iterations", VNum 3);
               ("startDate", VDate 0)].

Definition yearly_options : obj :=
  <["iterations" := VNum 1]> (<["frequency" := VStr "yearly"]> once_options).

Definition invalid_options : obj :=
  <["month" := VNum 13]> minutely_options.

(** The task the constructor makes of options it accepts. *)
Definition task_of (options : obj) (now : Z) : Task.t :=
  match Task.create options "generated" now with
  | inr task => task
  | inl _ => Task.Make EmptyString EmptyString ∅ ∅ (written_rule ∅ now)
  end.

(** The state a script leads to from [initial]. *)
Definition after_script (script : list (Z * action)) : state :=
  default initial (run RRule.plain_series script initial).

(** The task is scheduled at instant 10 and its timer fires when due. *)
Definition once_script : list (Z * action) :=
  [(10, Schedule once_options "generated"); (60000, Fire 0%nat)].

Definition scheduled_script (options : obj) : list (Z * action) :=
  [(10, Schedule options "generated")].

(** The secondly task is scheduled at instant 10 and its first timer
    fires when due. *)
Definition fired_script : list (Z * action) :=
  scheduled_script secondly_options ++ [(1000, Fire 0%nat)].

(** The minutely task is scheduled at instant 10; its first occurrence is
    due at 60000, the end of the window and the instant of the next poll
    tick.  The poll tick runs first, then the timer; the two timers set
    for 120000 fire when due. *)
Definition tie_script : list (Z * action) :=
  [(10, Schedule minutely_options "generated"); (60000, Poll);
   (60000, Fire 0%nat)].

Definition tie_script_end : list (Z * action) :=
  tie_script ++ [(120000, Fire 1%nat); (120000, Fire 2%nat)].

(** After the tie the task is removed; the timer whose handle was
    overwritten fires all the same. *)
Definition tie_script_removed : list (Z * action) :=
  tie_script ++ [(60001, Remove (VStr "t")); (120000, Fire 1%nat)].

(** After the tie a task with another handler is scheduled under the
    same identity; the timer whose handle was overwritten then fires. *)
Definition replacement_options : obj :=
  <["handler" := VFunction "h2"]> minutely_options.

Definition replace_script : list (Z * action) :=
  tie_script ++ [(60010, Schedule replacement_options "generated")].

Definition replace_script_end : list (Z * action) :=
  replace_script ++ [(120000, Fire 1%nat)].

(** The task that runs once is scheduled at instant 10; at 60000, the
    instant its timer is due, another callback runs before the timer:
    a call of [remove] for an identity that is not registered. *)
Definition pending_script : list (Z * action) :=
  scheduled_script once_options ++ [(60000, Remove (VStr "other"))].

(** A task to run once, one millisecond after the end of the first
    window, scheduled at instant 10 and seen by the poll tick. *)
Definition late_options : obj :=
  <["startDate" := VDate 60001]> once_options.

Definition late_script : list (Z * action) :=
  scheduled_script late_options ++ [(60000, Poll)].

End Statements.


(** * More of the two schedulers

    The notions of the second series of theorems: outcomes of the
    constructor, the events of a run counted, and the older scheduler
    run as callbacks like the newer one. *)

Module More.

Import XP Scheduler Statements.

(** *** The task class *)

(** The eleven options of a recurrence. *)
Definition option_names : list string := p_name <$> Task.properties.

(** Two outcomes of the constructor that differ at most in the options
    object the task keeps. *)
Definition same_outcome (r1 r2 : result Task.t) : Prop :=
  match r1, r2 with
  | inr t1, inr t2 =>
      Task.id t1 = Task.id t2 ∧ Task.handler t1 = Task.handler t2 ∧
      Task.fields t1 = Task.fields t2 ∧ Task.adaptee t1 = Task.adaptee t2
  | inl e1, inl e2 => e1 = e2
  | _, _ => False
  end.

(** The validations of the constructor, in its order: each property with
    the value written to it. *)
Definition validations (options : obj) (now : Z) : list (property * value) :=
  [(Task.endDate, options !!! "endDate" <||> VNull);
   (Task.frequency, written_frequency options);
   (Task.interval, options !!! "interval" <||> VNull);
   (Task.iterations, written_iterations options);
   (Task.month, options !!! "month" <||> VNull);
   (Task.monthDay, options !!! "monthDay" <||> VNull);
   (Task.startDate, options !!! "startDate" <||> VDate now);
   (Task.startTime, options !!! "startTime" <||> VNull);
   (Task.week, options !!! "week" <||> VNull);
   (Task.weekDay, options !!! "weekDay" <||> VNull);
   (Task.weekDays, options !!! "weekDays" <||> VArray [])].

(** The validations stop at the first value that is refused. *)
Fixpoint check_all (l : list (property * value)) : result unit :=
  match l with
  | [] => inr ()
  | (p, v) :: rest => do _ <- check p v; check_all rest
  end.

(** The value is null or an integer between two bounds. *)
Definition null_or_between (lo hi : Z) (v : value) : Prop :=
  v = VNull ∨ ∃ n, v = VNum n ∧ lo ≤ n ≤ hi.

Definition null_or_at_least (lo : Z) (v : value) : Prop :=
  v = VNull ∨ ∃ n, v = VNum n ∧ lo ≤ n.

Definition null_or_date (v : value) : Prop :=
  v = VNull ∨ ∃ ms, v = VDate ms.

(** *** The scheduler *)

Definition is_setTimeout (e : event) : bool :=
  match e with SetTimeout _ _ _ => true | _ => false end.

Definition is_handler (e : event) : bool :=
  match e with Handler _ _ => true | _ => false end.

(** The delay of every timer set in the trace satisfies [P]. *)
Definition delays (P : Z → Prop) (events : list event) : Prop :=
  Forall (λ e, match e with SetTimeout _ _ delay => P delay | _ => True end)
         events.

Definition is_clearTimeout (e : event) : bool :=
  match e with ClearTimeout _ => true | _ => false end.

(** The identities whose next date is read in the trace, in order. *)
Definition next_date_reads (events : list event) : list string :=
  omap (λ e, match e with NextDate id => Some id | _ => None end) events.

Definition timers_set (events : list event) : nat :=
  length (List.filter is_setTimeout events).

Definition handlers_called (events : list event) : nat :=
  length (List.filter is_handler events).

(** The host issued every armed handle before the next one. *)
Definition armed_issued (σ : state) : Prop :=
  ∀ h, is_Some (armed σ !! h) → (h < next_handle σ)%nat.

(** No armed timer is bound to a task of the identity. *)
Definition no_timer_for (id : string) (σ : state) : Prop :=
  ∀ h task due, armed σ !! h = Some (task, due) → Task.id task ≠ id.

End More.

(** ** The older scheduler as a run of callbacks *)

Module LegacyRun.

Import XP.

(** The older scheduler with what its callbacks close over and the
    emitter it extends: the identity each timer callback deletes, the
    handlers listening to the event 'poll' in the order they were added,
    and the handlers called so far (latest last). *)
Record world := World {
  core : Legacy.state;
  bound : gmap Legacy.handle string;
  listeners : list string;
  calls : list string
}.

(** [poll(handler)]: the handler is added to the event and called. *)
Definition poll (handler : string) (w : world) : world :=
  World (core w) (bound w) (listeners w ++ [handler]) (calls w ++ [handler]).

(** [this.emit('poll')], the callback of [setInterval]: the listeners are
    called in the order they were added. *)
Definition emit_poll (w : world) : world :=
  World (core w) (bound w) (listeners w) (calls w ++ listeners w).

(** [schedule(date, id, handler)]: the callback of the new timer closes
    over the identity. *)
Definition schedule (date : Z) (id : value) (handler : string)
    (fresh : string) (now : Z) (w : world) : option (world * string) :=
  '(c, key) ← Legacy.schedule date id handler fresh now (core w);
  Some (World c (<[Legacy.next_handle (core w) := key]> (bound w))
              (listeners w) (calls w), key).

Definition unschedule (id : value) (w : world) : option (world * bool) :=
  '(c, b) ← Legacy.unschedule id (core w);
  Some (World c (bound w) (listeners w) (calls w), b).

(** The callback of a timer, [() => { delete this.scheduled[id];
    handler(); }], when the timer is due. *)
Definition fire (h : Legacy.handle) (now : Z) (w : world) : option world :=
  '(handler, due) ← Legacy.armed (core w) !! h;
  id ← bound w !! h;
  if due <=? now then
    Some (World (Legacy.State (delete id (Legacy.scheduled (core w)))
                              (delete h (Legacy.armed (core w)))
                              (Legacy.next_handle (core w)))
                (bound w) (listeners w) (calls w ++ [handler]))
  else None.

Inductive action :=
  | Schedule (date : Z) (id : value) (handler : string) (fresh : string)
  | Unschedule (id : value)
  | Fire (h : Legacy.handle)
  | Poll (handler : string)
  | Tick.

(** A call that fails its assertion, or a timer that is not armed or not
    due, is no step. *)
Definition step (now : Z) (a : action) (w : world) : option world :=
  match a with
  | Schedule date id handler fresh =>
      fst <$> schedule date id handler fresh now w
  | Unschedule id => fst <$> unschedule id w
  | Fire h => fire h now w
  | Poll handler => Some (poll handler w)
  | Tick => Some (emit_poll w)
  end.

Definition empty : world := World (Legacy.State ∅ ∅ 0%nat) ∅ [] [].

Inductive reachable : world → Prop :=
  | reachable_empty : reachable empty
  | reachable_step w now a w' :
      reachable w → step now a w = Some w' → reachable w'.

Fixpoint run (script : list (Z * action)) (w : world) : option world :=
  match script with
  | [] => Some w
  | (now, a) :: rest => w' ← step now a w; run rest w'
  end.

(** Two identities are scheduled, the first one again, the second is
    unscheduled, and the second timer of the first fires. *)
Definition busy_script : list (Z * action) :=
  [(0, Schedule 100 (VStr "a") "f" "generated");
   (1, Schedule 200 (VStr "b") "g" "generated");
   (2, Schedule 300 (VStr "a") "f2" "generated");
   (3, Unschedule (VStr "b"));
   (300, Fire 2%nat)].

Definition after_script (script : list (Z * action)) : world :=
  default empty (run script empty).

(** A timer is armed exactly when its handle is the one recorded for the
    identity its callback closes over; the handles in use were all
    issued. *)
Record consistent (w : world) : Prop := Consistent {
  armed_recorded :
    ∀ h, is_Some (Legacy.armed (core w) !! h) ↔
         ∃ id, Legacy.scheduled (core w) !! id = Some h;
  recorded_bound :
    ∀ id h, Legacy.scheduled (core w) !! id = Some h → bound w !! h = Some id;
  issued :
    ∀ h, is_Some (Legacy.armed (core w) !! h) →
         (h < Legacy.next_handle (core w))%nat
}.

End LegacyRun.

(** * Theorems *)

(** ** The query [after] *)

Module RRuleTheory.

Import RRule.

Section After.

Variable lib : library.
Implicit Types (rule : options) (t d : Z).

Lemma after_Some rule t d :
  after lib rule t = Some d → t < d ∧ In d (lib rule).
Proof.
  unfold after. intros H. apply List.find_some in H as [Hin Hlt].
  split; [lia | done].
Qed.

Lemma find_later (l : list Z) t t' d' :
  t ≤ t' → List.find (λ d, t' <? d) l = Some d' →
  ∃ d, List.find (λ d, t <? d) l = Some d ∧ d ≤ d'.
Proof.
  intros Ht. induction l as [|x l IH]; simpl; [done|].
  destruct (t' <? x) eqn:Hx'.
  - intros [= <-]. assert ((t <? x) = true) as -> by lia. eauto with lia.
  - intros Hfind. destruct (t <? x) eqn:Hx.
    + apply List.find_some in Hfind as [_ Hd']. exists x. split; [done | lia].
    + auto.
Qed.

(** An occurrence found from a later instant is not before the one
    found from an earlier instant, which exists. *)
Lemma after_later rule t t' d' :
  t ≤ t' → after lib rule t' = Some d' →
  ∃ d, after lib rule t = Some d ∧ d ≤ d'.
Proof. apply find_later. Qed.

Lemma find_between (l : list Z) t t' d :
  t ≤ t' → t' < d → List.find (λ x, t <? x) l = Some d →
  List.find (λ x, t' <? x) l = Some d.
Proof.
  intros Ht Hd. induction l as [|x l IH]; simpl; [done|].
  destruct (t <? x) eqn:Hx.
  - intros [= ->]. by assert ((t' <? d) = true) as -> by lia.
  - assert ((t' <? x) = false) as -> by lia. done.
Qed.

(** Until an occurrence is reached it stays the next one. *)
Lemma after_between rule t t' d :
  t ≤ t' → t' < d → after lib rule t = Some d → after lib rule t' = Some d.
Proof. apply find_between. Qed.

Lemma after_None_later rule t t' :
  t ≤ t' → after lib rule t = None → after lib rule t' = None.
Proof.
  intros Ht Hnone. destruct (after lib rule t') as [d'|] eqn:Hd'; [|done].
  destruct (after_later _ _ _ _ Ht Hd') as (d & Hd & _). congruence.
Qed.

(** A series of at most one occurrence that [after] finds is that
    occurrence alone. *)
Lemma after_single rule t d :
  (length (lib rule) ≤ 1)%nat → after lib rule t = Some d → lib rule = [d].
Proof.
  intros Hlen Hd. apply after_Some in Hd as [_ Hin].
  destruct (lib rule) as [|x [|y l]]; simpl in *; [done| |lia].
  by destruct Hin as [->|[]].
Qed.

Lemma after_singleton rule t d :
  lib rule = [d] → after lib rule t = if t <? d then Some d else None.
Proof. unfold after. intros ->. simpl. by destruct (t <? d). Qed.

End After.

Lemma plain_series_count : honours_count plain_series.
Proof.
  intros rule n Hn. unfold plain_series. rewrite Hn.
  destruct (freq rule) as [f|]; [|simpl; lia].
  destruct (unfiltered rule); [|simpl; lia].
  destruct (period f) as [p|].
  - etransitivity; [apply List.filter_length_le|].
    by rewrite length_map, length_seqZ.
  - destruct (n =? 1) eqn:Hone; [|simpl; lia].
    etransitivity; [apply List.filter_length_le|]. simpl. lia.
Qed.

(** A rule without filter and with [count = 1] has its start as only
    occurrence, unless [until] is earlier. *)
Lemma plain_series_once rule :
  is_Some (freq rule) → count rule = Some 1 → unfiltered rule = true →
  plain_series rule
  = if not_after_until rule (dtstart rule) then [dtstart rule] else [].
Proof.
  intros [f Hf] Hcount Hplain. unfold plain_series.
  rewrite Hf, Hcount, Hplain.
  destruct (period f) as [p|]; simpl; [|done].
  replace (dtstart rule + (Z.of_nat 0 + 0) * default 1 (interval rule) * p)
    with (dtstart rule) by lia.
  done.
Qed.

Example minutely_series :
  plain_series (Options (Some MINUTELY) None (Some 3) [] None None None None
                        None None 0 None)
  = [0; 60000; 120000].
Proof. reflexivity. Qed.

End RRuleTheory.

(** ** Properties and the constructor of tasks *)

Module TaskTheory.

Import XP Task Statements.

Example time_of_day : timeRegex_match "09:30" = Some (9, 30, None).
Proof. reflexivity. Qed.

Example time_with_seconds : timeRegex_match "23:59:07" = Some (23, 59, Some 7).
Proof. reflexivity. Qed.

Example not_a_time : timeRegex_match "24:00" = None.
Proof. reflexivity. Qed.

Example weekday_out_of_table :
  create (<["weekDay" := VStr "xx"]> once_options) "generated" 0
  = inl (ValidationError "weekDay" "string").
Proof. vm_compute. reflexivity. Qed.

Lemma bind_inr {A B} (a : A) (k : A → result B) : bind (inr a) k = k a.
Proof. done. Qed.

Lemma bind_inl {A B} e (k : A → result B) : bind (inl e) k = inl e.
Proof. done. Qed.

Lemma refuse_if_None c ty : refuse_if c ty = None → c = false.
Proof. by destruct c. Qed.

Lemma check_inr p v : check p v = inr () → p_validate p v = None.
Proof. unfold check. by destruct (p_validate p v). Qed.

(** The first assignment of a field: the value is validated and stored
    as it is. *)
Lemma assign_fresh p this val :
  this !! p_name p = None → p_set p VUndefined val = val →
  assign p this val = do _ <- check p val; inr (<[p_name p := val]> this).
Proof.
  intros Hnone Hset. unfold assign, check.
  rewrite (lookup_total_alt this), Hnone. simpl. rewrite Hset.
  by destruct (p_validate p val).
Qed.

(** A later assignment of a field that holds an accepted value. *)
Lemma assign_again p this cur val :
  keeps p → this !! p_name p = Some cur → p_validate p cur = None →
  assign p this val = inr this.
Proof.
  intros Hk Hcur Hv. unfold assign.
  rewrite (lookup_total_correct _ _ _ Hcur), (Hk _ _ Hv), Hv.
  by rewrite insert_id.
Qed.

Lemma set_if_undefined_keeps cur val :
  isDefined cur = true → set_if_undefined cur val = cur.
Proof. unfold set_if_undefined. by intros ->. Qed.

Lemma properties_keep p : p ∈ properties → keeps p.
Proof.
  unfold properties. intros Hp cur val.
  repeat (apply elem_of_cons in Hp as [->|Hp]); [..|by apply elem_of_nil in Hp];
    simpl; intros Hv%refuse_if_None;
    try (apply set_if_undefined_keeps; by destruct cur).
  - unfold JS.or. destruct cur as [| | | | | |s| | | |]; try done.
    simpl. destruct (String.eqb_spec s EmptyString); [by subst|done].
  - unfold JS.or. by destruct cur.
Qed.

Ltac property_names :=
  cbn [p_name p_set endDate frequency interval iterations month monthDay
       startDate startTime week weekDay weekDays].

Ltac fresh_field :=
  property_names;
  first [ reflexivity
        | repeat (rewrite lookup_insert_ne by done); apply lookup_empty ].

Lemma initialize_fields_written options now :
  initialize_fields options now =
  do _ <- checks options now; inr (written options now).
Proof.
  unfold initialize_fields, checks, written, written_iterations,
    written_frequency.
  repeat (rewrite assign_fresh by fresh_field;
          match goal with
          | |- context [check ?p ?v] =>
              destruct (check p v) as [?|[]]; [by rewrite !bind_inl|];
              rewrite !bind_inr; cbv beta; property_names;
              repeat (rewrite lookup_total_insert_ne by done);
              rewrite ?lookup_total_insert_eq
          end).
  done.
Qed.

Ltac read_written :=
  unfold written;
  repeat (rewrite lookup_total_insert_ne by done); apply lookup_total_insert_eq.

Lemma written_fields options now :
  let this := written options now in
  this !!! "endDate" = options !!! "endDate" <||> VNull ∧
  this !!! "frequency" = written_frequency options ∧
  this !!! "interval" = options !!! "interval" <||> VNull ∧
  this !!! "iterations" = written_iterations options ∧
  this !!! "month" = options !!! "month" <||> VNull ∧
  this !!! "monthDay" = options !!! "monthDay" <||> VNull ∧
  this !!! "startDate" = options !!! "startDate" <||> VDate now ∧
  this !!! "startTime" = options !!! "startTime" <||> VNull ∧
  this !!! "week" = options !!! "week" <||> VNull ∧
  this !!! "weekDay" = options !!! "weekDay" <||> VNull ∧
  this !!! "weekDays" = options !!! "weekDays" <||> VArray [].
Proof. repeat split; read_written. Qed.

Lemma rule_of_written options now :
  rule_of (written options now) now = written_rule options now.
Proof.
  unfold rule_of, time_groups, written_rule, written_time.
  destruct (written_fields options now)
    as (-> & -> & -> & -> & -> & -> & -> & -> & -> & -> & ->).
  reflexivity.
Qed.

(** The constructor in one piece: identity and handler, the eleven
    validations, the fields and the rule. *)
Lemma create_written options fresh now :
  create options fresh now =
  do ih <- identify options fresh;
  do _ <- checks options now;
  inr (Make ih.1 ih.2 options (written options now) (written_rule options now)).
Proof.
  unfold create, initialize.
  destruct (identify options fresh) as [?|ih]; [done|].
  rewrite !bind_inr. cbv beta. rewrite initialize_fields_written.
  destruct (checks options now) as [?|[]]; [done|].
  rewrite !bind_inr. simpl. by rewrite rule_of_written.
Qed.

Lemma create_inr options fresh now task :
  create options fresh now = inr task →
  checks options now = inr () ∧
  fields task = written options now ∧
  adaptee task = written_rule options now.
Proof.
  rewrite create_written.
  destruct (identify options fresh) as [?|ih]; [done|]. rewrite bind_inr.
  destruct (checks options now) as [?|[]]; [done|]. rewrite bind_inr.
  by intros [= <-].
Qed.

Ltac step_check H :=
  match type of H with
  | bind (check ?p ?v) _ = inr _ =>
      let Hc := fresh "Hc" in
      destruct (check p v) as [?|[]] eqn:Hc;
      [rewrite bind_inl in H; discriminate|];
      rewrite bind_inr in H; cbv beta in H; apply check_inr in Hc
  end.

Lemma checks_valid options now :
  checks options now = inr () →
  ∀ p, p ∈ properties →
       ∃ cur, written options now !! p_name p = Some cur ∧ p_validate p cur = None.
Proof.
  intros H. unfold checks in H. do 11 step_check H. clear H.
  intros p Hp. unfold properties in Hp.
  repeat (apply elem_of_cons in Hp as [->|Hp]); [..|by apply elem_of_nil in Hp];
    eexists;
    (split; [property_names; unfold written;
             repeat (rewrite lookup_insert_ne by done);
             rewrite lookup_insert_eq; reflexivity
            | done]).
Qed.


(** *** Precise tasks and yearly tasks *)

Ltac same_options Heq :=
  rewrite ?(Heq "endDate"), ?(Heq "interval"), ?(Heq "month"),
    ?(Heq "monthDay"), ?(Heq "startDate"), ?(Heq "startTime"),
    ?(Heq "week"), ?(Heq "weekDay"), ?(Heq "weekDays") by done.

Lemma precise_yearly_checks (o1 o2 : obj) now :
  written_frequency o1 = VStr "precise" →
  o2 !!! "frequency" = VStr "yearly" →
  o2 !!! "iterations" = VNum 1 →
  same_but_recurrence o2 o1 →
  checks o1 now = checks o2 now.
Proof.
  intros Hprecise Hyearly Hone Heq.
  unfold checks, written_iterations. rewrite Hprecise.
  unfold written_frequency. rewrite Hyearly, Hone. same_options Heq.
  destruct (check endDate _) as [?|[]]; [done|]. rewrite !bind_inr.
  reflexivity.
Qed.

Lemma precise_yearly_rule (o1 o2 : obj) now :
  written_frequency o1 = VStr "precise" →
  o2 !!! "frequency" = VStr "yearly" →
  o2 !!! "iterations" = VNum 1 →
  same_but_recurrence o2 o1 →
  written_rule o1 now = written_rule o2 now.
Proof.
  intros Hprecise Hyearly Hone Heq.
  unfold written_rule, written_time, written_iterations. rewrite Hprecise.
  unfold written_frequency. rewrite Hyearly, Hone. same_options Heq.
  reflexivity.
Qed.

(** C10: options whose frequency is (or defaults to) 'precise', and
    options equal to them but for the frequency 'yearly' and one
    iteration, are both refused with the same error or both accepted,
    and the two tasks then have the same rule, hence the same next date
    at every instant, the same identity and the same handler. *)
Theorem precise_is_yearly_once lib (o1 o2 : obj) fresh now :
  o1 !!! "frequency" <||> VStr "precise" = VStr "precise" →
  o2 !!! "frequency" = VStr "yearly" →
  o2 !!! "iterations" = VNum 1 →
  same_but_recurrence o1 o2 →
  match create o1 fresh now, create o2 fresh now with
  | inr t1, inr t2 =>
      adaptee t1 = adaptee t2 ∧ id t1 = id t2 ∧ handler t1 = handler t2 ∧
      ∀ instant, nextDate lib t1 instant = nextDate lib t2 instant
  | inl e1, inl e2 => e1 = e2
  | _, _ => False
  end.
Proof.
  intros Hprecise Hyearly Hone Hsame.
  assert (same_but_recurrence o2 o1) as Heq by (intros ???; symmetry; auto).
  rewrite !create_written.
  rewrite (precise_yearly_checks o1 o2), (precise_yearly_rule o1 o2) by done.
  assert (identify o1 fresh = identify o2 fresh) as ->.
  { unfold identify. by rewrite !(Heq "id"), !(Heq "handler"). }
  destruct (identify o2 fresh) as [e|ih]; [done|]. rewrite !bind_inr.
  destruct (checks o2 now) as [e|[]]; [done|]. rewrite !bind_inr.
  unfold nextDate. simpl. done.
Qed.

Lemma once_yearly_same : same_but_recurrence once_options yearly_options.
Proof.
  intros key Hf Hi. unfold yearly_options.
  by rewrite !lookup_total_insert_ne by done.
Qed.

Lemma precise_is_yearly_once_witness :
  once_options !!! "frequency" <||> VStr "precise" = VStr "precise" ∧
  yearly_options !!! "frequency" = VStr "yearly" ∧
  yearly_options !!! "iterations" = VNum 1 ∧
  same_but_recurrence once_options yearly_options ∧
  match create once_options "generated" 0, create yearly_options "generated" 0 with
  | inr t1, inr t2 =>
      adaptee t1 = adaptee t2 ∧ id t1 = id t2 ∧ handler t1 = handler t2 ∧
      ∀ instant, nextDate RRule.plain_series t1 instant
                 = nextDate RRule.plain_series t2 instant
  | inl e1, inl e2 => e1 = e2
  | _, _ => False
  end.
Proof.
  assert (once_options !!! "frequency" <||> VStr "precise" = VStr "precise")
    as H1 by (vm_compute; reflexivity).
  assert (yearly_options !!! "frequency" = VStr "yearly")
    as H2 by (vm_compute; reflexivity).
  assert (yearly_options !!! "iterations" = VNum 1)
    as H3 by (vm_compute; reflexivity).
  split_and!; [exact H1 | exact H2 | exact H3 | exact once_yearly_same |].
  exact (precise_is_yearly_once RRule.plain_series once_options yearly_options
           "generated" 0 H1 H2 H3 once_yearly_same).
Defined.

(** *** The cap of the iterations *)

(** C2 as stated does not hold: a minutely task of one iteration returns
    its occurrence at the second read of [nextDate] as at the first. *)
Lemma second_read_returns_occurrence :
  create single_options "generated" 0 = inr (task_of single_options 0) ∧
  reads RRule.plain_series (task_of single_options 0) [10; 20]
  = [Some 60000; Some 60000] ∧
  ¬ exhausted_after RRule.plain_series (task_of single_options 0) 1.
Proof.
  split_and!; [vm_compute; reflexivity..|].
  intros Hcap. specialize (Hcap [10; 20] eq_refl).
  vm_compute in Hcap. discriminate.
Qed.

Lemma nextDate_in_series lib task instant d :
  nextDate lib task instant = Some d → d ∈ lib (adaptee task).
Proof.
  intros [_ Hin]%RRuleTheory.after_Some. by apply list_elem_of_In.
Qed.

(** C2, amended: for options of a frequency other than 'precise' that
    give [n] iterations, [n] is at least 1 and is the [count] of the
    rule.  [nextDate] reads the rule at the instant of the call and
    counts nothing: with a package that honours [count], the reads of any
    sequence of instants return at most [n] different occurrences, each
    as often as it is asked for; and once a read returns nothing, every
    read at a later instant returns nothing. *)
Theorem iterations_cap_the_series lib options fresh now task n :
  create options fresh now = inr task →
  written_frequency options ≠ VStr "precise" →
  options !!! "iterations" = VNum n →
  n ≠ 0 →
  1 ≤ n ∧
  RRule.count (adaptee task) = Some n ∧
  (RRule.honours_count lib →
   ∀ instants,
     (length (remove_dups (omap (nextDate lib task) instants))
      ≤ Z.to_nat n)%nat) ∧
  (∀ t t', t ≤ t' → nextDate lib task t = None → nextDate lib task t' = None).
Proof.
  intros (Hchecks & _ & Hrule)%create_inr Hfreq Hiter Hn.
  assert (written_iterations options = VNum n) as Hwritten.
  { unfold written_iterations.
    assert (strict_ne_str (written_frequency options) "precise" = true) as ->.
    { destruct (written_frequency options) as [| | | | | |s| | | |]; try done.
      simpl. destruct (String.eqb_spec s "precise"); [by subst|done]. }
    rewrite Hiter. unfold JS.or. simpl.
    by assert ((n =? 0) = false) as -> by lia. }
  assert (RRule.count (adaptee task) = Some n) as Hcount.
  { rewrite Hrule. simpl. by rewrite Hwritten. }
  split_and!.
  - unfold checks in Hchecks. do 4 step_check Hchecks.
    rewrite Hwritten in Hc2. apply refuse_if_None in Hc2. simpl in Hc2. lia.
  - done.
  - intros Hlib instants. etransitivity; [|by apply Hlib].
    apply submseteq_length, NoDup_submseteq; [apply NoDup_remove_dups|].
    intros d Hd. rewrite elem_of_remove_dups in Hd.
    apply list_elem_of_omap in Hd as (instant & _ & Hd).
    by eapply nextDate_in_series.
  - intros t t'. apply RRuleTheory.after_None_later.
Qed.

Lemma iterations_cap_the_series_witness :
  create minutely_options "generated" 0 = inr (task_of minutely_options 0) ∧
  written_frequency minutely_options ≠ VStr "precise" ∧
  minutely_options !!! "iterations" = VNum 3 ∧
  3 ≠ 0 ∧
  RRule.count (adaptee (task_of minutely_options 0)) = Some 3.
Proof.
  assert (create minutely_options "generated" 0 = inr (task_of minutely_options 0))
    as H1 by (vm_compute; reflexivity).
  assert (written_frequency minutely_options ≠ VStr "precise")
    as H2 by (vm_compute; discriminate).
  assert (minutely_options !!! "iterations" = VNum 3)
    as H3 by (vm_compute; reflexivity).
  assert (3 ≠ 0) as H4 by lia.
  split_and!; [exact H1 | exact H2 | exact H3 | exact H4 |].
  destruct (iterations_cap_the_series RRule.plain_series _ _ _ _ _ H1 H2 H3 H4)
    as (_ & Hcount & _).
  exact Hcount.
Defined.

(** *** Precise tasks *)

(** C4 as stated does not hold: a precise task whose end date is before
    its start date has no occurrence at all. *)
Lemma ended_precise_task_never_occurs :
  create ended_options "generated" 0 = inr (task_of ended_options 0) ∧
  fields (task_of ended_options 0) !!! "startDate" = VDate 60000 ∧
  (∀ instant, nextDate RRule.plain_series (task_of ended_options 0) instant = None) ∧
  ¬ only_occurrence RRule.plain_series (task_of ended_options 0) 60000.
Proof.
  assert (∀ instant,
            nextDate RRule.plain_series (task_of ended_options 0) instant = None)
    as Hnone by (intros instant; vm_compute; reflexivity).
  split_and!; [vm_compute; reflexivity..|done|].
  intros Honly. specialize (Honly 0). rewrite Hnone in Honly. done.
Qed.

(** C4, amended: for options whose frequency is (or defaults to)
    'precise', the field [iterations] is 1 whatever the options give, and
    the rule is the yearly rule of count 1 that starts at [startDate]
    and takes its hour, minute and second from [startTime] if given.
    With a package that honours [count] the task has at most one
    occurrence: if some read of [nextDate] returns an occurrence, every
    read before that instant returns it and every read from it on returns
    nothing.  For a rule without filter and without end date that
    occurrence is [startDate], and there is none when the end date is
    earlier. *)
Theorem precise_task_occurs_at_most_once lib options fresh now task :
  written_frequency options = VStr "precise" →
  create options fresh now = inr task →
  fields task !!! "iterations" = VNum 1 ∧
  RRule.count (adaptee task) = Some 1 ∧
  RRule.freq (adaptee task) = Some RRule.YEARLY ∧
  fields task !!! "startDate" = VDate (RRule.dtstart (adaptee task)) ∧
  (RRule.byhour (adaptee task), RRule.byminute (adaptee task),
   RRule.bysecond (adaptee task))
  = match written_time options with
    | Some (h, m, s) => (Some h, Some m, s)
    | None => (None, None, None)
    end ∧
  (RRule.honours_count lib →
   ∀ instant occ, nextDate lib task instant = Some occ →
                  only_occurrence lib task occ) ∧
  (RRule.unfiltered (adaptee task) = true →
   if RRule.not_after_until (adaptee task) (RRule.dtstart (adaptee task))
   then only_occurrence RRule.plain_series task (RRule.dtstart (adaptee task))
   else ∀ instant, nextDate RRule.plain_series task instant = None).
Proof.
  intros Hprecise (Hchecks & Hfields & Hrule)%create_inr.
  assert (written_iterations options = VNum 1) as Hiter.
  { unfold written_iterations. by rewrite Hprecise. }
  assert (RRule.count (adaptee task) = Some 1) as Hcount.
  { rewrite Hrule. simpl. by rewrite Hiter. }
  assert (RRule.freq (adaptee task) = Some RRule.YEARLY) as Hfreq.
  { rewrite Hrule. simpl. by rewrite Hprecise. }
  destruct (written_fields options now)
    as (_ & _ & _ & Hi & _ & _ & Hs & _).
  split_and!; try done.
  - by rewrite Hfields, Hi.
  - rewrite Hfields, Hs, Hrule. simpl.
    unfold checks in Hchecks. do 7 step_check Hchecks.
    apply refuse_if_None in Hc5.
    destruct (options !!! "startDate" <||> VDate now) eqn:Hstart; try done.
    unfold JS.or in Hstart.
    destruct (truthy (options !!! "startDate")) eqn:Htruthy; [|done].
    by rewrite Hstart in Htruthy.
  - rewrite Hrule. simpl. by destruct (written_time options) as [[[h m] s]|].
  - intros Hlib instant occ Hocc t. unfold nextDate in *.
    apply RRuleTheory.after_singleton.
    eapply RRuleTheory.after_single; [|done].
    by apply (Hlib _ 1).
  - intros Hplain.
    pose proof (RRuleTheory.plain_series_once (adaptee task)) as Hseries.
    destruct (RRule.not_after_until _ _); intros t; unfold nextDate.
    + apply RRuleTheory.after_singleton. by apply Hseries.
    + unfold RRule.after. by rewrite Hseries.
Qed.

Lemma precise_task_occurs_at_most_once_witness :
  written_frequency once_options = VStr "precise" ∧
  create once_options "generated" 0 = inr (task_of once_options 0) ∧
  RRule.count (adaptee (task_of once_options 0)) = Some 1.
Proof.
  assert (written_frequency once_options = VStr "precise")
    as H1 by (vm_compute; reflexivity).
  assert (create once_options "generated" 0 = inr (task_of once_options 0))
    as H2 by (vm_compute; reflexivity).
  split_and!; [exact H1 | exact H2 |].
  destruct (precise_task_occurs_at_most_once RRule.plain_series _ _ _ _ H1 H2)
    as (_ & Hcount & _).
  exact Hcount.
Defined.

(** The precise task of the example has its start date as only
    occurrence. *)
Example once_task_occurs_at_start :
  only_occurrence RRule.plain_series (task_of once_options 0) 60000.
Proof.
  intros instant. unfold nextDate.
  apply RRuleTheory.after_singleton. vm_compute. reflexivity.
Qed.

(** *** Set-once fields *)

Lemma fields_set_once options fresh now task p val :
  create options fresh now = inr task → p ∈ properties →
  assign p (fields task) val = inr (fields task).
Proof.
  intros (Hchecks & -> & _)%create_inr Hp.
  destruct (checks_valid _ _ Hchecks p Hp) as (cur & Hcur & Hvalid).
  eapply assign_again; [by apply properties_keep | done..].
Qed.


(** *** Refused options *)

(** A field whose written value the validator refuses makes the
    constructor fail. *)
Lemma refused_field_fails options fresh now p cur ty :
  p ∈ properties → written options now !! p_name p = Some cur →
  p_validate p cur = Some ty →
  ∃ error, create options fresh now = inl error.
Proof.
  intros Hp Hcur Hrefused. rewrite create_written.
  destruct (identify options fresh) as [e|ih]; [by exists e|].
  rewrite bind_inr.
  destruct (checks options now) as [e|[]] eqn:Hchecks; [by exists e|].
  destruct (checks_valid _ _ Hchecks p Hp) as (cur' & Hcur' & Hvalid).
  congruence.
Qed.

End TaskTheory.

(** ** The scheduler: what each method does, and the invariant of runs *)

Module SchedulerTheory.

Import XP Scheduler Statements RRuleTheory TaskTheory.

Section Invariants.

Variable lib : RRule.library.

Lemma handleTask_cases task now σ :
  let σ' := _handleTask lib task now σ in
  (tasks σ' = tasks σ ∧ latest σ' = latest σ ∧ interval σ' = interval σ ∧
   clock σ' = clock σ) ∧
  ((∃ d, Task.nextDate lib task now = Some d ∧ d ≤ latest σ + interval σ ∧
         timers σ' = <[Task.id task := next_handle σ]> (timers σ) ∧
         armed σ' = <[next_handle σ := (task, now + (d - now))]> (armed σ) ∧
         next_handle σ' = S (next_handle σ) ∧
         trace σ' = trace σ ++ [NextDate (Task.id task);
                                SetTimeout (next_handle σ) (Task.id task) (d - now)])
   ∨ ((Task.nextDate lib task now = None ∨
       ∃ d, Task.nextDate lib task now = Some d ∧ latest σ + interval σ < d) ∧
      timers σ' = timers σ ∧ armed σ' = armed σ ∧
      next_handle σ' = next_handle σ ∧
      trace σ' = trace σ ++ [NextDate (Task.id task)])).
Proof.
  unfold _handleTask. destruct (Task.nextDate lib task now) as [d|] eqn:Hd; simpl.
  - destruct (latest σ + interval σ <? d) eqn:Hw; simpl.
    + split; [done|]. right. repeat split; try done. right. exists d. split; [done | lia].
    + split; [done|]. left. exists d. rewrite <- app_assoc. repeat split; try done. lia.
  - split; [done|]. right. repeat split; try done. by left.
Qed.

Lemma handleTask_covers task now σ :
  now ≤ clock σ → covered lib (_handleTask lib task now σ) (Task.id task) task.
Proof.
  intros Hnow now' d' Hclock Hd' Hw.
  destruct (handleTask_cases task now σ) as [(_ & Hl & Hi & Hc) [Harm|Hno]].
  - destruct Harm as (? & _ & _ & -> & _). by rewrite lookup_insert_eq.
  - exfalso. rewrite Hl, Hi in Hw. rewrite Hc in Hclock.
    destruct (after_later lib (Task.adaptee task) now now' d') as (d & Hd & Hle);
      [lia | done |].
    destruct Hno as [[Hnone|(d0 & Hd0 & Hlt)] _]; unfold Task.nextDate in *.
    + congruence.
    + assert (d0 = d) by congruence. lia.
Qed.

Lemma handleTask_covered task now σ id t :
  covered lib σ id t → covered lib (_handleTask lib task now σ) id t.
Proof.
  intros Hcov now' d' Hclock Hd' Hw.
  destruct (handleTask_cases task now σ) as [(_ & Hl & Hi & Hc) Hcases].
  rewrite Hl, Hi in Hw. rewrite Hc in Hclock.
  specialize (Hcov now' d' Hclock Hd' Hw).
  destruct Hcases as [(? & _ & _ & -> & _)|(_ & -> & _)]; [|done].
  destruct (decide (Task.id task = id)) as [->|].
  - by rewrite lookup_insert_eq.
  - by rewrite lookup_insert_ne.
Qed.

Lemma handleTask_ok task now σ :
  handles_ok σ → handles_ok (_handleTask lib task now σ).
Proof.
  intros [H1 H2 H3 H4 H5 H6].
  destruct (handleTask_cases task now σ) as [(Ht & Hl & Hi & Hc) Hcases].
  destruct Hcases as [(d & Hd & Hw & Htm & Har & Hn & _)|(_ & Htm & Har & Hn & _)];
    split; rewrite ?Ht, ?Hl, ?Hi, ?Hc, ?Htm, ?Har, ?Hn; try done.
  - intros id h. destruct (decide (Task.id task = id)) as [->|].
    + rewrite lookup_insert_eq. intros [= <-]. lia.
    + rewrite lookup_insert_ne by done. intros ?%H4. lia.
  - intros h x. destruct (decide (next_handle σ = h)) as [->|].
    + intros _. lia.
    + rewrite lookup_insert_ne by done. intros ?%H5. lia.
  - intros h t due. destruct (decide (next_handle σ = h)) as [->|].
    + rewrite lookup_insert_eq. intros [= <- <-]. lia.
    + rewrite lookup_insert_ne by done. apply H6.
Qed.

Lemma handleTask_invariant task now σ :
  invariant lib σ → invariant lib (_handleTask lib task now σ).
Proof.
  intros [Hok Hwin]. split; [by apply handleTask_ok|].
  intros id t Hid. apply handleTask_covered, Hwin.
  by destruct (handleTask_cases task now σ) as [(<- & _) _].
Qed.

Lemma set_clock_invariant now σ :
  clock σ ≤ now → invariant lib σ → invariant lib (set_clock now σ).
Proof.
  intros Hnow [[H1 H2 H3 H4 H5 H6] Hwin]. split; [split; simpl; try done; lia|].
  intros id task Hid now' d Hclock. simpl in *. apply (Hwin id task Hid). lia.
Qed.

Lemma remove_cases id σ :
  (isString_notEmpty id = false ∧
   remove id σ = (σ, inl (ValidationError "id" "string"))) ∨
  (∃ key, id = VStr key ∧ key ≠ EmptyString ∧ (remove id σ).2 = inr VNull ∧
          tasks (remove id σ).1 = delete key (tasks σ) ∧
          timers (remove id σ).1 = delete key (timers σ) ∧
          latest (remove id σ).1 = latest σ ∧
          interval (remove id σ).1 = interval σ ∧
          clock (remove id σ).1 = clock σ ∧
          next_handle (remove id σ).1 = next_handle σ ∧
          match timers σ !! key with
          | Some h => armed (remove id σ).1 = delete h (armed σ) ∧
                      trace (remove id σ).1 = trace σ ++ [ClearTimeout h]
          | None => armed (remove id σ).1 = armed σ ∧
                    trace (remove id σ).1 = trace σ
          end).
Proof.
  unfold remove. destruct (isString_notEmpty id) eqn:Hid; simpl; [right|by left].
  destruct id as [| | | | | |key| | | |]; try done. simpl in Hid.
  exists key. split; [done|]. split.
  { intros ->. done. }
  simpl. destruct (timers σ !! key); simpl; done.
Qed.

Lemma remove_invariant id σ : invariant lib σ → invariant lib (remove id σ).1.
Proof.
  intros Hinv.
  destruct (remove_cases id σ) as [[_ ->]|(key & -> & Hkey & _ & Ht & Htm & Hl & Hi & Hc & Hn & Ha)];
    [done|].
  destruct Hinv as [[H1 H2 H3 H4 H5 H6] Hwin].
  set (σ' := (remove (VStr key) σ).1) in *.
  assert (∀ h x, armed σ' !! h = Some x → armed σ !! h = Some x) as Harmed.
  { intros h x. destruct (timers σ !! key) as [h0|]; destruct Ha as [-> _]; [|done].
    intros Hx. apply lookup_delete_Some in Hx. tauto. }
  split; [split|]; rewrite ?Ht, ?Htm, ?Hl, ?Hi, ?Hc, ?Hn; try done.
  - intros id task [_ ?]%lookup_delete_Some. auto.
  - intros id h [_ ?]%lookup_delete_Some. eauto.
  - eauto.
  - eauto.
  - intros id task [Hne Hid]%lookup_delete_Some now d Hclock Hd Hw.
    rewrite Hc in Hclock. rewrite Hl, Hi in Hw. rewrite Htm, lookup_delete_ne by done.
    by apply (Hwin id task Hid now d).
Qed.

Lemma schedule_invariant options fresh now σ :
  now ≤ clock σ → invariant lib σ → invariant lib (schedule lib options fresh now σ).1.
Proof.
  intros Hnow Hinv. unfold schedule.
  destruct (Task.create options fresh now) as [e|task]; [done|].
  pose proof (remove_invariant (VStr (Task.id task)) σ Hinv) as Hinv1.
  destruct (remove_cases (VStr (Task.id task)) σ)
    as [[_ Hr]|(key & [= <-] & Hkey & Hres & Ht & Htm & Hl & Hi & Hc & Hn & _)].
  { rewrite Hr in *. done. }
  destruct (remove (VStr (Task.id task)) σ) as [σ1 r]; simpl in *. subst r.
  simpl. destruct Hinv1 as [[H1 H2 H3 H4 H5 H6] Hwin].
  set (σ2 := set_tasks _ σ1).
  assert (handles_ok σ2) as Hok2.
  { split; simpl; try done. intros id t.
    destruct (decide (Task.id task = id)) as [<-|].
    - rewrite lookup_insert_eq. by intros [= <-].
    - rewrite lookup_insert_ne by done. apply H3. }
  split; [by apply handleTask_ok|].
  destruct (handleTask_cases task now σ2) as [(Ht2 & _) _].
  intros id t. rewrite Ht2. simpl.
  destruct (decide (Task.id task = id)) as [<-|].
  - rewrite lookup_insert_eq. intros [= <-]. apply handleTask_covers. simpl. lia.
  - rewrite lookup_insert_ne by done. intros Hid.
    apply handleTask_covered. apply (Hwin id t Hid).
Qed.

Lemma poll_fold now (l : list (string * Task.t)) σ :
  now ≤ clock σ →
  let σ' := foldl (λ s entry, _handleTask lib entry.2 now s) σ l in
  (handles_ok σ → handles_ok σ') ∧
  tasks σ' = tasks σ ∧ clock σ' = clock σ ∧
  (∀ id t, covered lib σ id t → covered lib σ' id t) ∧
  (∀ entry, entry ∈ l → Task.id entry.2 = entry.1 → covered lib σ' entry.1 entry.2).
Proof.
  revert σ. induction l as [|[id task] l IH]; intros σ Hnow; simpl.
  { split_and!; try done. intros entry Hin. by apply elem_of_nil in Hin. }
  destruct (handleTask_cases task now σ) as [(Ht & _ & _ & Hc) _].
  destruct (IH (_handleTask lib task now σ)) as (Hok & Ht' & Hc' & Hmono & Hcov);
    [lia|].
  split_and!.
  - intros ?. by apply Hok, handleTask_ok.
  - congruence.
  - congruence.
  - intros ???. by apply Hmono, handleTask_covered.
  - intros entry [->|Hin]%elem_of_cons Hid.
    + simpl in *. apply Hmono. subst id. by apply handleTask_covers.
    + by apply Hcov.
Qed.

Lemma poll_invariant now σ :
  clock σ = now → invariant lib σ → invariant lib (_handlePoll lib now σ).
Proof.
  intros Hnow [[H1 H2 H3 H4 H5 H6] _]. unfold _handlePoll.
  destruct (poll_fold now (map_to_list (tasks σ)) (set_latest now σ))
    as (Hok & Ht & _ & _ & Hcov); [simpl; lia|].
  split.
  - apply Hok. split; simpl; try done; [lia|].
    intros h t due Hh. specialize (H6 h t due Hh). lia.
  - intros id task. rewrite Ht. simpl. intros Hid.
    apply (Hcov (id, task)); [by apply elem_of_map_to_list|].
    simpl. by apply (H3 id task Hid).
Qed.

Lemma fire_invariant h now σ σ' :
  invariant lib σ → fire lib h now σ = Some σ' → invariant lib σ'.
Proof.
  intros [[H1 H2 H3 H4 H5 H6] Hwin]. unfold fire.
  destruct (armed σ !! h) as [[task due]|]; [|done].
  destruct (due <=? now); [|done]. intros [= <-].
  unfold _handleTimeout.
  assert (invariant lib (_handleTask lib task now (disarm h σ))) as [[]].
  { apply handleTask_invariant. split; [split|]; simpl; try done.
    - intros h' x [_ ?]%lookup_delete_Some. eauto.
    - intros h' t d [_ ?]%lookup_delete_Some. eauto. }
  split; [split|]; simpl; done.
Qed.

Lemma initialize_cases options now σ :
  initialize options now = inr σ →
  0 ≤ now ∧ 1 ≤ interval σ ∧
  σ = State ∅ ∅ now (interval σ) ∅ 0%nat now [].
Proof.
  unfold initialize.
  rewrite assign_fresh by done. unfold check at 1.
  cbn [p_name p_validate latest_property isInt_notNegative].
  destruct (0 <=? now) eqn:Hnow; cbn [negb refuse_if]; [|done].
  rewrite !bind_inr.
  rewrite assign_fresh by done. unfold check.
  cbn [p_name p_validate interval_property].
  set (v := options !!! "interval" <||> VNum 60000).
  assert (isInt_notNegative v = true → ∃ n, v = VNum n ∧ 1 ≤ n) as Hv.
  { unfold v, JS.or.
    destruct (options !!! "interval") as [| |[]|n| | |s| | | |]; simpl;
      try done; try (intros _; exists 60000; split; [done | lia]).
    - destruct (n =? 0) eqn:Hz; simpl.
      + intros _. exists 60000. split; [done | lia].
      + intros Hn. exists n. split; [done | lia].
    - destruct (String.eqb s EmptyString); simpl; [|done].
      intros _. exists 60000. split; [done | lia]. }
  destruct (isInt_notNegative v); cbn [negb refuse_if]; [|done].
  destruct Hv as (n & -> & Hn); [done|].
  rewrite !bind_inr. intros [= <-]. cbn [interval latest].
  rewrite lookup_total_insert_eq.
  rewrite lookup_total_insert_ne by done. rewrite lookup_total_insert_eq.
  simpl. split; [lia|]. split; [lia | done].
Qed.

Lemma initialize_invariant options now σ :
  initialize options now = inr σ → invariant lib σ.
Proof.
  intros (Hnow & Hint & ->)%initialize_cases.
  split; [split|]; simpl; try done; try lia.
Qed.

Lemma step_invariant now a σ σ' :
  invariant lib σ → step lib now a σ = Some σ' → invariant lib σ'.
Proof.
  intros Hinv. unfold step. destruct (clock σ <=? now) eqn:Hnow; [|done].
  assert (invariant lib (set_clock now σ)) as Hinv0
    by (apply set_clock_invariant; [lia | done]).
  destruct a as [options fresh|id| |h].
  - intros [= <-]. by apply schedule_invariant.
  - intros [= <-]. by apply remove_invariant.
  - intros [= <-]. by apply poll_invariant.
  - by apply fire_invariant.
Qed.

Lemma reachable_invariant σ : reachable lib σ → invariant lib σ.
Proof.
  induction 1 as [options now σ Hinit|σ now a σ' _ IH Hstep].
  - by eapply initialize_invariant.
  - by eapply step_invariant.
Qed.

Lemma run_reachable script σ σ' :
  reachable lib σ → run lib script σ = Some σ' → reachable lib σ'.
Proof.
  revert σ. induction script as [|[now a] script IH]; intros σ Hreach; simpl.
  - by intros [= <-].
  - destruct (step lib now a σ) as [σ1|] eqn:Hstep; simpl; [|done].
    apply IH. by eapply reachable_step.
Qed.

(** *** The armed timers

    A second invariant of runs, on the timers themselves rather than
    on the handles of the map. *)

Lemma handleTask_armed task now σ h x :
  handles_ok σ → armed σ !! h = Some x →
  armed (_handleTask lib task now σ) !! h = Some x.
Proof.
  intros Hok Hh.
  destruct (handleTask_cases task now σ)
    as [_ [(d & _ & _ & _ & -> & _)|(_ & _ & -> & _)]]; [|done].
  rewrite lookup_insert_ne; [done|]. intros <-.
  pose proof (ok_armed _ Hok _ _ Hh). lia.
Qed.

Lemma handleTask_armed_covers task now σ :
  now ≤ clock σ → armed_covered lib (_handleTask lib task now σ) task.
Proof.
  intros Hnow now' d' Hclock Hd' Hw.
  destruct (handleTask_cases task now σ) as [(_ & Hl & Hi & Hc) [Harm|Hno]].
  - destruct Harm as (d & _ & _ & _ & -> & _).
    eexists _, _. apply lookup_insert_eq.
  - exfalso. rewrite Hl, Hi in Hw. rewrite Hc in Hclock.
    destruct (after_later lib (Task.adaptee task) now now' d') as (d & Hd & Hle);
      [lia | done |].
    destruct Hno as [[Hnone|(d0 & Hd0 & Hlt)] _]; unfold Task.nextDate in *.
    + congruence.
    + assert (d0 = d) by congruence. lia.
Qed.

Lemma handleTask_armed_covered task now σ t :
  handles_ok σ → armed_covered lib σ t →
  armed_covered lib (_handleTask lib task now σ) t.
Proof.
  intros Hok Hcov now' d' Hclock Hd' Hw.
  destruct (handleTask_cases task now σ) as [(_ & Hl & Hi & Hc) _].
  rewrite Hl, Hi in Hw. rewrite Hc in Hclock.
  destruct (Hcov now' d' Hclock Hd' Hw) as (h & due & Hh).
  exists h, due. by apply handleTask_armed.
Qed.

Lemma handleTask_armed_ok task now σ :
  now ≤ clock σ → handles_ok σ → armed_ok lib σ →
  armed_ok lib (_handleTask lib task now σ).
Proof.
  intros Hnow Hok [Hbound Hread].
  destruct (handleTask_cases task now σ) as [(_ & _ & _ & Hc) Hcases].
  destruct Hcases as [(d & Hd & _ & Htm & Har & _)|(_ & Htm & Har & _)];
    split; rewrite ?Htm, ?Har, ?Hc; try done.
  - intros id h t due.
    destruct (decide (next_handle σ = h)) as [<-|Hne].
    + rewrite lookup_insert_eq. intros Hid [= <- _].
      destruct (decide (Task.id task = id)) as [|Hother]; [done|].
      rewrite lookup_insert_ne in Hid by done.
      pose proof (ok_timers _ Hok _ _ Hid). lia.
    + rewrite (lookup_insert_ne (armed σ)) by done.
      destruct (decide (Task.id task = id)) as [<-|Hother].
      * rewrite lookup_insert_eq. by intros [= ?].
      * rewrite lookup_insert_ne by done. apply Hbound.
  - intros h t due.
    destruct (decide (next_handle σ = h)) as [<-|Hne].
    + rewrite lookup_insert_eq. intros [= <- <-].
      exists now. split; [done|].
      by replace (now + (d - now)) with d by lia.
    + rewrite lookup_insert_ne by done. apply Hread.
Qed.

Lemma set_clock_armed_invariant now σ :
  clock σ ≤ now → armed_invariant lib σ →
  armed_invariant lib (set_clock now σ).
Proof.
  intros Hnow [[Hbound Hread] Hcov]. split; [split|]; simpl.
  - done.
  - intros h t due Hh. destruct (Hread h t due Hh) as (now0 & ? & ?).
    exists now0. split; [lia | done].
  - intros id task Hid now' d Hclock. simpl in *.
    apply (Hcov id task Hid). lia.
Qed.

Lemma remove_armed_invariant id σ :
  handles_ok σ → armed_invariant lib σ →
  armed_invariant lib (remove id σ).1.
Proof.
  intros Hok [[Hbound Hread] Hcov].
  destruct (remove_cases id σ)
    as [[_ ->]|(key & -> & Hkey & _ & Ht & Htm & Hl & Hi & Hc & Hn & Ha)];
    [done|].
  set (σ' := (remove (VStr key) σ).1) in *.
  assert (∀ h x, armed σ' !! h = Some x → armed σ !! h = Some x) as Harmed.
  { intros h x. destruct (timers σ !! key) as [h0|]; destruct Ha as [-> _]; [|done].
    intros Hx. apply lookup_delete_Some in Hx. tauto. }
  split; [split|].
  - intros id h t due. rewrite Htm. intros [_ Hid]%lookup_delete_Some Hh.
    eapply Hbound; eauto.
  - intros h t due Hh. rewrite Hc. eauto.
  - intros id task. rewrite Ht. intros [Hne Hid]%lookup_delete_Some now d.
    rewrite Hc, Hl, Hi. intros Hclock Hd Hw.
    destruct (Hcov id task Hid now d Hclock Hd Hw) as (h & due & Hh).
    exists h, due.
    destruct (timers σ !! key) as [h0|] eqn:Hh0; destruct Ha as [-> _]; [|done].
    rewrite lookup_delete_ne; [done|]. intros <-.
    pose proof (Hbound _ _ _ _ Hh0 Hh) as Hbind.
    destruct (ok_ids _ Hok _ _ Hid) as [Hsame _]. congruence.
Qed.

Lemma schedule_armed_invariant options fresh now σ :
  now ≤ clock σ → handles_ok σ → armed_invariant lib σ →
  armed_invariant lib (schedule lib options fresh now σ).1.
Proof.
  intros Hnow Hok Hinv. unfold schedule.
  destruct (Task.create options fresh now) as [e|task]; [done|].
  pose proof (remove_armed_invariant (VStr (Task.id task)) σ Hok Hinv) as Hinv1.
  assert (handles_ok (remove (VStr (Task.id task)) σ).1) as Hok1'.
  { destruct (remove_cases (VStr (Task.id task)) σ)
      as [[_ ->]|(key & [= <-] & _ & _ & Ht & Htm & Hl & Hi & Hc & Hn & Ha)];
      [done|].
    destruct Hok as [H1 H2 H3 H4 H5 H6].
    assert (∀ h x, armed (remove (VStr (Task.id task)) σ).1 !! h = Some x →
                   armed σ !! h = Some x) as Harmed.
    { intros h x. destruct (timers σ !! Task.id task) as [h0|];
        destruct Ha as [-> _]; [|done].
      intros Hx. apply lookup_delete_Some in Hx. tauto. }
    split; rewrite ?Ht, ?Htm, ?Hl, ?Hi, ?Hc, ?Hn; try done.
    - intros id t [_ ?]%lookup_delete_Some. auto.
    - intros id h [_ ?]%lookup_delete_Some. eauto.
    - eauto.
    - eauto. }
  destruct (remove_cases (VStr (Task.id task)) σ)
    as [[_ Hr]|(key & [= <-] & Hkey & Hres & _ & _ & _ & _ & Hc & _)].
  { rewrite Hr in *. done. }
  destruct (remove (VStr (Task.id task)) σ) as [σ1 r]; simpl in *. subst r.
  simpl. destruct Hinv1 as [[Hbound Hread] Hcov].
  destruct Hok1' as [H1 H2 H3 H4 H5 H6].
  set (σ2 := set_tasks _ σ1).
  assert (handles_ok σ2) as Hok2.
  { split; simpl; try done. intros id t.
    destruct (decide (Task.id task = id)) as [<-|].
    - rewrite lookup_insert_eq. by intros [= <-].
    - rewrite lookup_insert_ne by done. apply H3. }
  assert (armed_ok lib σ2) as Harmed2 by (split; simpl; done).
  split; [apply handleTask_armed_ok; [simpl; lia | done | done]|].
  destruct (handleTask_cases task now σ2) as [(Ht2 & _) _].
  intros id t. rewrite Ht2. simpl.
  destruct (decide (Task.id task = id)) as [<-|].
  - rewrite lookup_insert_eq. intros [= <-].
    apply handleTask_armed_covers. simpl. lia.
  - rewrite lookup_insert_ne by done. intros Hid.
    apply handleTask_armed_covered; [done|]. apply (Hcov id t Hid).
Qed.

Lemma poll_fold_armed now (l : list (string * Task.t)) σ :
  now ≤ clock σ → handles_ok σ → armed_ok lib σ →
  let σ' := foldl (λ s entry, _handleTask lib entry.2 now s) σ l in
  armed_ok lib σ' ∧
  (∀ t, armed_covered lib σ t → armed_covered lib σ' t) ∧
  (∀ entry, entry ∈ l → armed_covered lib σ' entry.2).
Proof.
  revert σ. induction l as [|[id task] l IH]; intros σ Hnow Hok Harmed; simpl.
  { split_and!; try done. intros entry Hin. by apply elem_of_nil in Hin. }
  destruct (handleTask_cases task now σ) as [(_ & _ & _ & Hc) _].
  destruct (IH (_handleTask lib task now σ)) as (Harmed' & Hmono & Hcov);
    [lia | by apply handleTask_ok | by apply handleTask_armed_ok |].
  split_and!.
  - done.
  - intros t Ht. by apply Hmono, handleTask_armed_covered.
  - intros entry [->|Hin]%elem_of_cons.
    + simpl. by apply Hmono, handleTask_armed_covers.
    + by apply Hcov.
Qed.

Lemma poll_armed_invariant now σ :
  clock σ = now → handles_ok σ → armed_invariant lib σ →
  armed_invariant lib (_handlePoll lib now σ).
Proof.
  intros Hnow [H1 H2 H3 H4 H5 H6] [[Hbound Hread] _]. unfold _handlePoll.
  assert (handles_ok (set_latest now σ)) as Hok0.
  { split; simpl; try done; [lia|].
    intros h t due Hh. specialize (H6 h t due Hh). lia. }
  destruct (poll_fold now (map_to_list (tasks σ)) (set_latest now σ))
    as (_ & Ht & _); [simpl; lia|].
  destruct (poll_fold_armed now (map_to_list (tasks σ)) (set_latest now σ))
    as (Harmed & _ & Hcov); [simpl; lia | done | by split |].
  split; [done|].
  intros id task. rewrite Ht. simpl. intros Hid.
  apply (Hcov (id, task)). by apply elem_of_map_to_list.
Qed.

Lemma fire_armed_invariant h now σ σ' :
  now ≤ clock σ → handles_ok σ → armed_invariant lib σ →
  fire lib h now σ = Some σ' → armed_invariant lib σ'.
Proof.
  intros Hnow Hok [[Hbound Hread] Hcov]. unfold fire.
  destruct (armed σ !! h) as [[task due]|] eqn:Hh; [|done].
  destruct (due <=? now); [|done]. intros [= <-].
  unfold _handleTimeout.
  assert (handles_ok (disarm h σ)) as Hok1.
  { destruct Hok as [H1 H2 H3 H4 H5 H6]. split; simpl; try done.
    - intros h' x [_ ?]%lookup_delete_Some. eauto.
    - intros h' t d [_ ?]%lookup_delete_Some. eauto. }
  assert (armed_ok lib (disarm h σ)) as Harmed1.
  { split; simpl.
    - intros id h' t d Hid [_ ?]%lookup_delete_Some. eauto.
    - intros h' t d [_ ?]%lookup_delete_Some. eauto. }
  pose proof (handleTask_armed_ok task now (disarm h σ) Hnow Hok1 Harmed1)
    as [Hbound' Hread'].
  split; [split; simpl; done|].
  destruct (handleTask_cases task now (disarm h σ)) as [(Ht & Hl & Hi & Hc) _].
  intros id t. simpl. rewrite Ht. simpl. intros Hid now' d Hclock Hd Hw.
  simpl in *. rewrite Hc in Hclock. rewrite Hl, Hi in Hw. simpl in *.
  destruct (Hcov id t Hid now' d Hclock Hd Hw) as (h' & due' & Hh').
  destruct (decide (h' = h)) as [->|Hne].
  - assert (t = task) as -> by congruence.
    apply (handleTask_armed_covers task now (disarm h σ) Hnow now' d);
      [by rewrite Hc | done | by rewrite Hl, Hi].
  - exists h', due'. apply handleTask_armed; [done|].
    simpl. by rewrite lookup_delete_ne.
Qed.

Lemma initialize_armed_invariant options now σ :
  initialize options now = inr σ → armed_invariant lib σ.
Proof.
  intros (_ & _ & ->)%initialize_cases.
  split; [split|]; simpl; intros *; by rewrite lookup_empty.
Qed.

Lemma step_armed_invariant now a σ σ' :
  handles_ok σ → armed_invariant lib σ → step lib now a σ = Some σ' →
  armed_invariant lib σ'.
Proof.
  intros Hok Hinv. unfold step. destruct (clock σ <=? now) eqn:Hnow; [|done].
  assert (armed_invariant lib (set_clock now σ)) as Hinv0
    by (apply set_clock_armed_invariant; [lia | done]).
  assert (handles_ok (set_clock now σ)) as Hok0.
  { destruct Hok. split; simpl; try done. lia. }
  destruct a as [options fresh|id| |h].
  - intros [= <-]. by apply schedule_armed_invariant.
  - intros [= <-]. by apply remove_armed_invariant.
  - intros [= <-]. by apply poll_armed_invariant.
  - by apply fire_armed_invariant.
Qed.

Lemma reachable_armed_invariant σ :
  reachable lib σ → armed_invariant lib σ.
Proof.
  induction 1 as [options now σ Hinit|σ now a σ' Hreach IH Hstep].
  - by eapply initialize_armed_invariant.
  - apply reachable_invariant in Hreach as [Hok _].
    by eapply step_armed_invariant.
Qed.

(** *** Concrete runs *)

Lemma initial_reachable : reachable lib initial.
Proof. by apply (reachable_init lib ∅ 0). Qed.

End Invariants.

Lemma script_reachable script :
  run RRule.plain_series script initial ≠ None →
  reachable RRule.plain_series (after_script script).
Proof.
  unfold after_script.
  destruct (run RRule.plain_series script initial) as [σ|] eqn:Hrun; [|done].
  intros _. eapply run_reachable; [apply initial_reachable | done].
Qed.

Ltac run_script := apply script_reachable; vm_compute; discriminate.

(** *** The timer window *)

(** A task due one millisecond after the window has no timer until the
    poll tick whose window covers it. *)
Example beyond_window_waits :
  armed_for "t" (after_script (scheduled_script late_options)) = [] ∧
  armed_for "t" (after_script late_script) = [(0%nat, 60001)].
Proof. split; vm_compute; reflexivity. Qed.

(** The handle of a timer that fired is not deleted from the map: once
    the timer of a task that runs once has fired, the handle stays
    although no timer is armed and the task has no next occurrence.
    (The timer callback of the older scheduler deletes its entry.) *)
Example stale_handle_after_fire :
  reachable RRule.plain_series (after_script once_script) ∧
  armed_for "t" (after_script once_script) = [] ∧
  ¬ timer_window RRule.plain_series (after_script once_script).
Proof.
  split; [run_script|]. split; [vm_compute; reflexivity|].
  intros Hwindow.
  destruct (Hwindow "t" (task_of once_options 10)) as [Hhandle _];
    [vm_compute; reflexivity|].
  destruct Hhandle as (d & Hd & _); [by vm_compute; eexists|].
  vm_compute in Hd. discriminate.
Qed.

(** C1 as stated does not hold.  The task that runs once at 60000 is
    scheduled at instant 10 and its timer is armed for 60000.  At 60000
    another callback runs before the timer's (a call of [remove] for an
    identity that is not registered): between the two callbacks the
    timer is still armed and its handle in the map, and the task has no
    next occurrence any more, the one at 60000 being no longer ahead. *)
Lemma due_timer_still_armed :
  reachable RRule.plain_series (after_script pending_script) ∧
  clock (after_script pending_script) = 60000 ∧
  armed_for "t" (after_script pending_script) = [(0%nat, 60000)] ∧
  Task.nextDate RRule.plain_series (task_of once_options 10) 60000 = None ∧
  ¬ timer_window RRule.plain_series (after_script pending_script).
Proof.
  split; [run_script|]. split_and!; [vm_compute; reflexivity..|].
  intros Hwindow.
  destruct (Hwindow "t" (task_of once_options 10)) as [Hhandle _];
    [vm_compute; reflexivity|].
  destruct Hhandle as (d & Hd & _); [by vm_compute; eexists|].
  vm_compute in Hd. discriminate.
Qed.

(** C1, amended: in every state of a run, a registered task whose next
    occurrence (read at the clock or later, before the next callback) is
    no later than [latest + interval] has a timer of its own armed, due
    no later than that occurrence, and a handle in the map of timers;
    the occurrence is not before [latest].  Every armed timer is due no
    later than [latest + interval], and until it is due it is due
    exactly at the next occurrence of its task, which is later than
    [latest]: a task whose next occurrence is beyond the window, or
    that has none, has no timer that is still to come due.  [remove]
    leaves neither the task nor a handle under the identity, the timer
    of the handle being cleared. *)
Theorem due_tasks_have_armed_timers lib σ :
  reachable lib σ →
  (∀ id task now d,
      tasks σ !! id = Some task → clock σ ≤ now →
      Task.nextDate lib task now = Some d → d ≤ latest σ + interval σ →
      latest σ ≤ d ∧ is_Some (timers σ !! id) ∧
      ∃ h due, armed σ !! h = Some (task, due) ∧ due ≤ d) ∧
  (∀ h task due, armed σ !! h = Some (task, due) → due ≤ latest σ + interval σ) ∧
  (∀ h task due now,
      armed σ !! h = Some (task, due) → clock σ ≤ now → now < due →
      Task.nextDate lib task now = Some due ∧ latest σ < due) ∧
  (∀ id, id ≠ EmptyString →
      tasks (remove (VStr id) σ).1 !! id = None ∧
      timers (remove (VStr id) σ).1 !! id = None ∧
      ∀ h, timers σ !! id = Some h → armed (remove (VStr id) σ).1 !! h = None).
Proof.
  intros Hreach.
  destruct (reachable_invariant lib σ Hreach)
    as [[Hlatest _ _ _ _ Hdue] Hwindow].
  destruct (reachable_armed_invariant lib σ Hreach) as [[_ Hread] Hcov].
  split_and!.
  - intros id task now d Hid Hnow Hd Hw. split_and!.
    + apply after_Some in Hd as [Hd _]. lia.
    + by eapply (Hwindow id task Hid now d).
    + destruct (Hcov id task Hid now d Hnow Hd Hw) as (h & due & Hh).
      exists h, due. split; [done|].
      destruct (Hread h task due Hh) as (now0 & Hnow0 & Hdue0).
      destruct (after_later lib (Task.adaptee task) now0 now d)
        as (d0 & Hd0 & Hle); [lia | done |].
      unfold Task.nextDate in Hdue0. congruence.
  - done.
  - intros h task due now Hh Hnow Hlt.
    destruct (Hread h task due Hh) as (now0 & Hnow0 & Hdue0).
    split; [|lia].
    apply (after_between lib (Task.adaptee task) now0 now due); [lia | done | done].
  - intros id Hid.
    destruct (remove_cases (VStr id) σ)
      as [[Hempty _]|(key & [= <-] & _ & _ & -> & -> & _ & _ & _ & _ & Harmed)].
    { simpl in Hempty. by destruct (String.eqb_spec id EmptyString). }
    split_and!; [apply lookup_delete_eq..|].
    intros h Hh. rewrite Hh in Harmed. destruct Harmed as [-> _].
    apply lookup_delete_eq.
Qed.

Lemma due_tasks_have_armed_timers_witness :
  reachable RRule.plain_series (after_script (scheduled_script once_options)) ∧
  tasks (after_script (scheduled_script once_options)) !! "t"
  = Some (task_of once_options 10) ∧
  clock (after_script (scheduled_script once_options)) ≤ 10 ∧
  Task.nextDate RRule.plain_series (task_of once_options 10) 10 = Some 60000 ∧
  60000 ≤ latest (after_script (scheduled_script once_options))
          + interval (after_script (scheduled_script once_options)) ∧
  ∃ h due,
    armed (after_script (scheduled_script once_options)) !! h
    = Some (task_of once_options 10, due) ∧ due ≤ 60000.
Proof.
  assert (reachable RRule.plain_series
            (after_script (scheduled_script once_options))) as Hreach.
  { apply script_reachable. vm_compute. discriminate. }
  assert (tasks (after_script (scheduled_script once_options)) !! "t"
          = Some (task_of once_options 10)) as Hid
    by (vm_compute; reflexivity).
  assert (clock (after_script (scheduled_script once_options)) ≤ 10) as Hclock
    by (apply Z.leb_le; vm_compute; reflexivity).
  assert (Task.nextDate RRule.plain_series (task_of once_options 10) 10
          = Some 60000) as Hnext
    by (vm_compute; reflexivity).
  assert (60000 ≤ latest (after_script (scheduled_script once_options))
                  + interval (after_script (scheduled_script once_options)))
    as Hw by (apply Z.leb_le; vm_compute; reflexivity).
  destruct (due_tasks_have_armed_timers RRule.plain_series _ Hreach)
    as (Hif & _).
  destruct (Hif "t" (task_of once_options 10) 10 60000 Hid Hclock Hnext Hw)
    as (_ & _ & Harmed).
  split_and!; [exact Hreach | exact Hid | exact Hclock | exact Hnext
              | exact Hw | exact Harmed].
Defined.

(** *** The timer callback *)

Lemma emitted_app σ σ' events :
  trace σ' = trace σ ++ events → emitted σ σ' = events.
Proof. unfold emitted. intros ->. by rewrite drop_app_length. Qed.

(** C3 as stated does not hold: when the first timer of the secondly task
    fires, the callback reads the next occurrence and sets the next
    timer, and calls the handler last. *)
Lemma handler_is_called_last :
  emitted (after_script (scheduled_script secondly_options))
          (after_script fired_script)
  = [NextDate "t"; SetTimeout 1 "t" 1000; Handler "t" "h"] ∧
  ¬ handler_first (emitted (after_script (scheduled_script secondly_options))
                           (after_script fired_script)).
Proof.
  split; [vm_compute; reflexivity|].
  intros (id & h & rest & Hfirst). vm_compute in Hfirst. discriminate.
Qed.

(** C3, amended: the callback of a timer first reads the next occurrence
    of the task and, when there is one no later than [latest + interval]
    ([latest] as the last poll tick left it), sets a new timer for it and
    records its handle; only then it calls the handler, once.  Otherwise
    no timer is set, and the map of timers and [latest] are as before. *)
Theorem timer_callback_rearms_then_calls lib task now σ :
  let σ' := _handleTimeout lib task now σ in
  emitted σ σ'
  = NextDate (Task.id task)
    :: match rearm lib task now σ with
       | Some d => [SetTimeout (next_handle σ) (Task.id task) (d - now)]
       | None => []
       end
    ++ [Handler (Task.id task) (Task.handler task)] ∧
  latest σ' = latest σ ∧ interval σ' = interval σ ∧ tasks σ' = tasks σ ∧
  match rearm lib task now σ with
  | Some d =>
      d ≤ latest σ + interval σ ∧
      timers σ' = <[Task.id task := next_handle σ]> (timers σ) ∧
      armed σ' = <[next_handle σ := (task, now + (d - now))]> (armed σ)
  | None => timers σ' = timers σ ∧ armed σ' = armed σ
  end.
Proof.
  unfold _handleTimeout, rearm. simpl.
  destruct (handleTask_cases lib task now σ) as [(Ht & Hl & Hi & _) Hcases].
  destruct Hcases as [(d & Hd & Hw & Htm & Har & _ & Htr)
                     |(Hno & Htm & Har & _ & Htr)].
  - rewrite Hd. simpl. assert ((latest σ + interval σ <? d) = false) as -> by lia.
    split_and!; try done.
    apply emitted_app. simpl. rewrite Htr. by rewrite <- app_assoc.
  - assert (Task.nextDate lib task now ≫=
              (λ d, if latest σ + interval σ <? d then None else Some d) = None)
      as ->.
    { destruct Hno as [->|(d & -> & Hlt)]; [done|]. simpl.
      by assert ((latest σ + interval σ <? d) = true) as -> by lia. }
    split_and!; try done.
    apply emitted_app. simpl. rewrite Htr. by rewrite <- app_assoc.
Qed.

(** *** [schedule] and [remove] *)

(** C6 as stated does not hold: what the callback of [remove] receives is
    the same whether the identity was registered or not, so nothing read
    from it tells the two cases apart. *)
Lemma remove_does_not_report : ¬ reports_existence.
Proof.
  intros (decode & Hdecode).
  assert ("t" ≠ EmptyString) as Hid by discriminate.
  pose proof (Hdecode initial "t" Hid) as Habsent.
  pose proof (Hdecode (after_script (scheduled_script once_options)) "t" Hid)
    as Hthere.
  assert ((remove (VStr "t") initial).2
          = (remove (VStr "t") (after_script (scheduled_script once_options))).2)
    as Hsame by (vm_compute; reflexivity).
  assert (bool_decide (is_Some (tasks initial !! "t")) = false)
    as Hno by (vm_compute; reflexivity).
  assert (bool_decide (is_Some (tasks (after_script (scheduled_script once_options))
                                  !! "t")) = true)
    as Hyes by (vm_compute; reflexivity).
  congruence.
Qed.

(** The older [unschedule] returns [true] in both cases as well. *)
Lemma unschedule_returns_true id σ σ' b :
  Legacy.unschedule id σ = Some (σ', b) → b = true.
Proof.
  unfold Legacy.unschedule. destruct (isString_notEmpty id); [|done].
  by intros [= _ <-].
Qed.

(** C6, amended: for an identity that is a string and not empty, [remove]
    clears the timer whose handle the map holds for it, if any, deletes
    the identity from the registry and from the map of timers, and gives
    its callback no error and the data null, the same whether the
    identity was registered or not; when the identity has neither a task
    nor a handle, the state is unchanged. *)
Theorem remove_deletes id σ :
  id ≠ EmptyString →
  (remove (VStr id) σ).2 = inr VNull ∧
  tasks (remove (VStr id) σ).1 = delete id (tasks σ) ∧
  timers (remove (VStr id) σ).1 = delete id (timers σ) ∧
  armed (remove (VStr id) σ).1
  = match timers σ !! id with
    | Some h => delete h (armed σ)
    | None => armed σ
    end ∧
  (tasks σ !! id = None → timers σ !! id = None → (remove (VStr id) σ).1 = σ).
Proof.
  intros Hid.
  destruct (remove_cases (VStr id) σ)
    as [[Hempty _]|(key & [= <-] & _ & Hres & Ht & Htm & _ & _ & _ & _ & Harmed)].
  { simpl in Hempty. by destruct (String.eqb_spec id EmptyString). }
  split_and!; try done.
  - by destruct (timers σ !! id); destruct Harmed.
  - intros Hnotask Hnotimer. unfold remove. simpl.
    destruct (String.eqb_spec id EmptyString); [done|]. simpl.
    rewrite Hnotimer. unfold set_timers, set_tasks. simpl.
    rewrite !delete_id by done. by destruct σ.
Qed.

Lemma remove_deletes_witness :
  "t" ≠ EmptyString ∧
  tasks (remove (VStr "t") (after_script (scheduled_script once_options))).1
  = delete "t" (tasks (after_script (scheduled_script once_options))).
Proof.
  assert ("t" ≠ EmptyString) as Hid by discriminate.
  split; [exact Hid|].
  destruct (remove_deletes "t" (after_script (scheduled_script once_options)) Hid)
    as (_ & Htasks & _).
  exact Htasks.
Defined.

(** *** Two timers for one task *)

(** The older [schedule] clears the timer it replaces. *)
Lemma legacy_schedule_clears date key handler fresh now σ σ' h :
  key ≠ EmptyString → Legacy.scheduled σ !! key = Some h →
  h ≠ Legacy.next_handle σ →
  Legacy.schedule date (VStr key) handler fresh now σ = Some (σ', key) →
  Legacy.armed σ' !! h = None ∧
  Legacy.scheduled σ' !! key = Some (Legacy.next_handle σ).
Proof.
  intros Hkey Hh Hfresh. unfold Legacy.schedule, Legacy.unschedule. simpl.
  destruct (String.eqb_spec key EmptyString) as [|_]; [done|]. simpl.
  rewrite Hh. simpl.
  destruct (String.eqb_spec key EmptyString) as [|_]; [done|]. simpl.
  intros [= <-]. simpl. split.
  - rewrite lookup_insert_ne by done. apply lookup_delete_eq.
  - apply lookup_insert_eq.
Qed.

(** C7 fails on the code.  The minutely task is scheduled at instant 10
    and its timer is set for 60000, the last instant of the window and
    the instant of the next poll tick.  The poll tick, run first, sets a
    timer for 120000 over the handle of the timer that is still armed;
    that timer then fires and its callback sets another timer for
    120000.  Two timers are now armed for the task and the same
    occurrence; both fire, and the handler is called three times for the
    two occurrences that were due. *)
Theorem poll_tie_arms_twice :
  run RRule.plain_series tie_script initial = Some (after_script tie_script) ∧
  armed_for "t" (after_script tie_script) = [(2%nat, 120000); (1%nat, 120000)] ∧
  timers (after_script tie_script) !! "t" = Some 2%nat ∧
  run RRule.plain_series tie_script_end initial
  = Some (after_script tie_script_end) ∧
  List.filter (λ d, 10 <? d)
    (RRule.plain_series (Task.adaptee (task_of minutely_options 10)))
  = [60000; 120000] ∧
  handler_calls "t" (trace (after_script tie_script_end)) = 3%nat.
Proof. split_and!; vm_compute; reflexivity. Qed.

(** Removing the task after the tie clears the timer of the handle in
    the map only: the other timer fires and calls the handler of a task
    that is no longer registered. *)
Example overwritten_timer_survives_remove :
  tasks (after_script tie_script_removed) !! "t" = None ∧
  emitted (after_script (tie_script ++ [(60001, Remove (VStr "t"))]))
          (after_script tie_script_removed)
  = [NextDate "t"; Handler "t" "h"].
Proof. split; vm_compute; reflexivity. Qed.

(** C5 fails on the code, by the defect of C7.  After the tie two timers
    are armed for the task and the map holds the handle of one of them.
    A task with another handler is then scheduled under the same
    identity: it takes the place of the first in the registry, but
    [schedule] clears the timer of the handle in the map only.  The
    other timer of the replaced task stays armed; at 120000 it fires
    and calls the handler of the task that was replaced. *)
Theorem replaced_task_still_fires :
  run RRule.plain_series replace_script_end initial
  = Some (after_script replace_script_end) ∧
  tasks (after_script tie_script) !! "t" = Some (task_of minutely_options 10) ∧
  tasks (after_script replace_script) !! "t"
  = Some (task_of replacement_options 60010) ∧
  Task.handler (task_of minutely_options 10) = "h" ∧
  Task.handler (task_of replacement_options 60010) = "h2" ∧
  emitted (after_script tie_script) (after_script replace_script)
  = [ClearTimeout 2%nat; NextDate "t"; SetTimeout 3%nat "t" 59990] ∧
  armed (after_script replace_script) !! 1%nat
  = Some (task_of minutely_options 10, 120000) ∧
  emitted (after_script replace_script) (after_script replace_script_end)
  = [NextDate "t"; Handler "t" "h"].
Proof. split_and!; vm_compute; reflexivity. Qed.

(** *** Set-once fields *)

Lemma interval_set_once lib σ val :
  reachable lib σ → set_interval val σ = inr σ.
Proof.
  intros [[_ Hinterval _ _ _ _] _]%reachable_invariant.
  unfold set_interval, assign.
  cbn [p_name p_set p_validate interval_property].
  rewrite lookup_total_singleton. unfold JS.or. simpl.
  assert ((interval σ =? 0) = false) as -> by lia. simpl.
  assert ((0 <=? interval σ) = true) as -> by lia. simpl.
  rewrite lookup_total_insert_eq. simpl. by destruct σ.
Qed.

(** C8: every field of a constructed task is set once: assigning any of
    the eleven properties again, whatever the value, leaves the fields as
    they are and raises no error; and so does assigning the interval of a
    scheduler in any state of a run. *)
Theorem fields_are_set_once lib options fresh now task σ p val :
  Task.create options fresh now = inr task →
  reachable lib σ →
  p ∈ Task.properties →
  assign p (Task.fields task) val = inr (Task.fields task) ∧
  set_interval val σ = inr σ.
Proof.
  intros Hcreate Hreach Hp. split.
  - by eapply fields_set_once.
  - by eapply interval_set_once.
Qed.

Lemma fields_are_set_once_witness :
  Task.create minutely_options "generated" 0 = inr (task_of minutely_options 0) ∧
  reachable RRule.plain_series initial ∧
  Task.iterations ∈ Task.properties ∧
  assign Task.iterations (Task.fields (task_of minutely_options 0)) (VNum 7)
  = inr (Task.fields (task_of minutely_options 0)) ∧
  set_interval (VNum 5) initial = inr initial.
Proof.
  assert (Task.create minutely_options "generated" 0
          = inr (task_of minutely_options 0)) as H1 by (vm_compute; reflexivity).
  assert (Task.iterations ∈ Task.properties) as H3.
  { unfold Task.properties. rewrite !elem_of_cons. tauto. }
  split_and!; [exact H1 | exact (initial_reachable _) | exact H3 |..];
    destruct (fields_are_set_once RRule.plain_series _ _ _ _ initial
                Task.iterations (VNum 7) H1 (initial_reachable _) H3) as [Hf _];
    destruct (fields_are_set_once RRule.plain_series _ _ _ _ initial
                Task.iterations (VNum 5) H1 (initial_reachable _) H3) as [_ Hi];
    [exact Hf | exact Hi].
Defined.

(** *** Refused options *)

(** C9: when the constructor of the task refuses the options, which it
    does as soon as one field fails its validation, [schedule] gives the
    error to its callback and leaves the state as it is: no task is
    registered, no timer set. *)
Theorem invalid_options_change_nothing lib options fresh now σ :
  (∀ error, Task.create options fresh now = inl error →
            schedule lib options fresh now σ = (σ, inl error)) ∧
  (∀ p cur ty,
      p ∈ Task.properties → written options now !! p_name p = Some cur →
      p_validate p cur = Some ty →
      ∃ error, schedule lib options fresh now σ = (σ, inl error)).
Proof.
  assert (∀ error, Task.create options fresh now = inl error →
                   schedule lib options fresh now σ = (σ, inl error)) as Hfail.
  { intros error Hcreate. unfold schedule. by rewrite Hcreate. }
  split; [done|].
  intros p cur ty Hp Hcur Hrefused.
  destruct (refused_field_fails options fresh now p cur ty Hp Hcur Hrefused)
    as [error Herror].
  exists error. by apply Hfail.
Qed.

Lemma invalid_options_change_nothing_witness :
  Task.create invalid_options "generated" 10
  = inl (ValidationError "month" "number") ∧
  schedule RRule.plain_series invalid_options "generated" 10 initial
  = (initial, inl (ValidationError "month" "number")).
Proof.
  assert (Task.create invalid_options "generated" 10
          = inl (ValidationError "month" "number")) as H1
    by (vm_compute; reflexivity).
  split; [exact H1|].
  destruct (invalid_options_change_nothing RRule.plain_series invalid_options
              "generated" 10 initial) as [Hfail _].
  exact (Hfail _ H1).
Defined.

End SchedulerTheory.


(** * More theorems *)

(** ** The constructor of tasks: what it accepts, what it reports *)

Module TaskMore.

Import XP Task Statements More TaskTheory.

Lemma checks_check_all options now :
  checks options now = check_all (validations options now).
Proof. reflexivity. Qed.

Lemma validations_written options now p v :
  (p, v) ∈ validations options now → written options now !!! p_name p = v.
Proof.
  unfold validations. intros Hin.
  destruct (written_fields options now)
    as (H1 & H2 & H3 & H4 & H5 & H6 & H7 & H8 & H9 & H10 & H11).
  repeat (apply elem_of_cons in Hin as [[= -> ->]|Hin]; [done|]).
  by apply elem_of_nil in Hin.
Qed.

Lemma check_all_inr l :
  check_all l = inr () → Forall (λ pv, p_validate pv.1 pv.2 = None) l.
Proof.
  induction l as [|[p v] l IH]; simpl; [by constructor|].
  destruct (check p v) as [?|[]] eqn:Hc; [done|]. rewrite bind_inr.
  intros Hl. constructor; [by apply check_inr | auto].
Qed.

Lemma check_all_inl l e :
  check_all l = inl e →
  ∃ before p v after ty,
    l = before ++ (p, v) :: after ∧
    Forall (λ pv, p_validate pv.1 pv.2 = None) before ∧
    p_validate p v = Some ty ∧ e = ValidationError (p_name p) ty.
Proof.
  induction l as [|[p v] l IH]; simpl; [done|].
  unfold check at 1. destruct (p_validate p v) as [ty|] eqn:Hv.
  - rewrite bind_inl. intros [= <-]. by exists [], p, v, l, ty.
  - rewrite bind_inr. intros (before & q & w & after & ty & -> & Hb & Hq & ->)%IH.
    exists ((p, v) :: before), q, w, after, ty. split_and!; try done.
    by constructor.
Qed.

(** X1: the error the constructor reports is that of the first option, in the
    order of the constructor, whose written value its validator refuses:
    it carries the name of that field and the type the validator
    returns. *)
Theorem error_names_first_refused options fresh now e :
  create options fresh now = inl e →
  identify options fresh = inl e ∨
  ∃ before p v after ty,
    validations options now = before ++ (p, v) :: after ∧
    Forall (λ pv, p_validate pv.1 pv.2 = None) before ∧
    written options now !!! p_name p = v ∧
    p_validate p v = Some ty ∧
    e = ValidationError (p_name p) ty.
Proof.
  rewrite create_written.
  destruct (identify options fresh) as [e'|ih]; [intros [= <-]; by left|].
  rewrite bind_inr. rewrite checks_check_all.
  destruct (check_all (validations options now)) as [e'|[]] eqn:Hall; [|done].
  rewrite bind_inl. intros [= <-]. right.
  destruct (check_all_inl _ _ Hall) as (before & p & v & after & ty & Hl & Hb & Hv & ->).
  exists before, p, v, after, ty. split_and!; try done.
  apply validations_written. rewrite Hl. apply elem_of_app. right. by left.
Qed.

Lemma error_names_first_refused_witness :
  create invalid_options "generated" 0 = inl (ValidationError "month" "number") ∧
  (identify invalid_options "generated" = inl (ValidationError "month" "number") ∨
   ∃ before p v after ty,
     validations invalid_options 0 = before ++ (p, v) :: after ∧
     Forall (λ pv, p_validate pv.1 pv.2 = None) before ∧
     written invalid_options 0 !!! p_name p = v ∧
     p_validate p v = Some ty ∧
     ValidationError "month" "number" = ValidationError (p_name p) ty).
Proof.
  assert (create invalid_options "generated" 0
          = inl (ValidationError "month" "number")) as H
    by (vm_compute; reflexivity).
  split; [exact H|].
  exact (error_names_first_refused invalid_options "generated" 0 _ H).
Defined.

(** *** Accepted fields *)

Lemma valid_null_or_at_least v ty :
  refuse_if (negb (isNull v) && (negb (isInt v) || below v 1)) ty = None →
  null_or_at_least 1 v.
Proof.
  intros H%refuse_if_None. destruct v; simpl in *; try done; [by left|].
  right. eexists. split; [done | lia].
Qed.

Lemma valid_null_or_between hi v ty :
  refuse_if (negb (isNull v) && (negb (isInt v) || below v 1 || above v hi)) ty
  = None →
  null_or_between 1 hi v.
Proof.
  intros H%refuse_if_None. destruct v; simpl in *; try done; [by left|].
  right. eexists. split; [done | lia].
Qed.

Lemma valid_null_or_date v ty :
  refuse_if (negb (isNull v) && negb (isDate v)) ty = None → null_or_date v.
Proof.
  intros H%refuse_if_None. destruct v; simpl in *; try done; [by left|].
  right. by eexists.
Qed.

(** X2: the fields of a constructed task that the validators of numbers,
    dates and times guard are in their ranges: the end date is null or a
    date and the start date a date, interval and iterations are null or
    at least 1, the month is null or from 1 to 12, the day of the month
    null or from 1 to 31, the start time null or a string the time format
    matches, and the weekdays are an array. *)
Theorem constructed_fields_in_range options fresh now task :
  create options fresh now = inr task →
  null_or_date (fields task !!! "endDate") ∧
  null_or_at_least 1 (fields task !!! "interval") ∧
  null_or_at_least 1 (fields task !!! "iterations") ∧
  null_or_between 1 12 (fields task !!! "month") ∧
  null_or_between 1 31 (fields task !!! "monthDay") ∧
  (∃ ms, fields task !!! "startDate" = VDate ms) ∧
  (fields task !!! "startTime" = VNull ∨
   ∃ s, fields task !!! "startTime" = VStr s ∧ is_Some (timeRegex_match s)) ∧
  (∃ l, fields task !!! "weekDays" = VArray l).
Proof.
  intros (Hchecks & -> & _)%create_inr.
  rewrite checks_check_all in Hchecks. apply check_all_inr in Hchecks.
  unfold validations in Hchecks.
  apply Forall_cons in Hchecks as [Hend Hchecks].
  apply Forall_cons in Hchecks as [_ Hchecks].
  apply Forall_cons in Hchecks as [Hint Hchecks].
  apply Forall_cons in Hchecks as [Hiter Hchecks].
  apply Forall_cons in Hchecks as [Hmonth Hchecks].
  apply Forall_cons in Hchecks as [Hday Hchecks].
  apply Forall_cons in Hchecks as [Hstart Hchecks].
  apply Forall_cons in Hchecks as [Htime Hchecks].
  apply Forall_cons in Hchecks as [_ Hchecks].
  apply Forall_cons in Hchecks as [_ Hchecks].
  apply Forall_cons in Hchecks as [Hwds _].
  simpl in *.
  destruct (written_fields options now)
    as (-> & _ & -> & -> & -> & -> & -> & -> & _ & _ & ->).
  split_and!.
  - by eapply valid_null_or_date.
  - by eapply valid_null_or_at_least.
  - by eapply valid_null_or_at_least.
  - by eapply valid_null_or_between.
  - by eapply valid_null_or_between.
  - apply valid_null_or_date in Hstart as [Hnull|Hdate]; [|done].
    exfalso. unfold JS.or in Hnull.
    destruct (truthy (options !!! "startDate")) eqn:Ht; [|done].
    by rewrite Hnull in Ht.
  - apply refuse_if_None in Htime.
    destruct (options !!! "startTime" <||> VNull); simpl in Htime; try done;
      [by left|].
    right. eexists. split; [done|].
    apply (bool_decide_unpack _). by destruct (bool_decide _).
  - apply refuse_if_None in Hwds.
    destruct (options !!! "weekDays" <||> VArray []) as [| | | | | | | |l| |];
      simpl in Hwds; try done.
    by exists l.
Qed.

Lemma constructed_fields_in_range_witness :
  create minutely_options "generated" 0 = inr (task_of minutely_options 0) ∧
  null_or_between 1 12 (fields (task_of minutely_options 0) !!! "month") ∧
  null_or_at_least 1 (fields (task_of minutely_options 0) !!! "iterations").
Proof.
  assert (create minutely_options "generated" 0 = inr (task_of minutely_options 0))
    as H by (vm_compute; reflexivity).
  destruct (constructed_fields_in_range _ _ _ _ H)
    as (_ & _ & Hiter & Hmonth & _).
  split_and!; [exact H | exact Hmonth | exact Hiter].
Defined.

(** *** Options that count as missing *)

Lemma option_name_not_identity key :
  key ∈ option_names → key ≠ "id" ∧ key ≠ "handler".
Proof.
  unfold option_names, properties. simpl. intros Hin.
  split; intros ->;
    repeat (apply elem_of_cons in Hin as [Hin|Hin]; [discriminate|]);
    by apply elem_of_nil in Hin.
Qed.

Lemma falsy_reads_as_missing (options : obj) key v name d :
  truthy v = false →
  <[key := v]> options !!! name <||> d = delete key options !!! name <||> d.
Proof.
  intros Hv. destruct (decide (key = name)) as [->|Hne].
  - rewrite lookup_total_insert_eq, lookup_total_delete_eq.
    unfold JS.or. by rewrite Hv.
  - by rewrite lookup_total_insert_ne, lookup_total_delete_ne.
Qed.

(** X3: an option of the recurrence whose value is falsy (0, the empty string,
    false, null, NaN) counts as missing: the constructor refuses or
    accepts the options as it does without the option, and the task has
    the same fields and the same rule.  So an interval of 0 is accepted
    and stored as null, although the validator asks for 1 at least. *)
Theorem falsy_option_is_missing (options : obj) key v fresh now :
  key ∈ option_names →
  truthy v = false →
  same_outcome (create (<[key := v]> options) fresh now)
               (create (delete key options) fresh now).
Proof.
  intros [Hid Hhandler]%option_name_not_identity Hv.
  pose proof (falsy_reads_as_missing options key v) as H.
  rewrite !create_written.
  assert (identify (<[key := v]> options) fresh = identify (delete key options) fresh)
    as ->.
  { unfold identify.
    by rewrite !lookup_total_insert_ne, !lookup_total_delete_ne by done. }
  assert (checks (<[key := v]> options) now = checks (delete key options) now)
    as ->.
  { unfold checks, written_iterations, written_frequency.
    by rewrite !(H "endDate"), !(H "frequency"), !(H "interval"),
      !(H "iterations"), !(H "month"), !(H "monthDay"), !(H "startDate"),
      !(H "startTime"), !(H "week"), !(H "weekDay"), !(H "weekDays") by done. }
  assert (written (<[key := v]> options) now = written (delete key options) now)
    as ->.
  { unfold written, written_iterations, written_frequency.
    by rewrite !(H "endDate"), !(H "frequency"), !(H "interval"),
      !(H "iterations"), !(H "month"), !(H "monthDay"), !(H "startDate"),
      !(H "startTime"), !(H "week"), !(H "weekDay"), !(H "weekDays") by done. }
  assert (written_rule (<[key := v]> options) now
          = written_rule (delete key options) now) as ->.
  { unfold written_rule, written_time, written_iterations, written_frequency.
    by rewrite !(H "endDate"), !(H "frequency"), !(H "interval"),
      !(H "iterations"), !(H "month"), !(H "monthDay"), !(H "startDate"),
      !(H "startTime"), !(H "week"), !(H "weekDay"), !(H "weekDays") by done. }
  destruct (identify (delete key options) fresh) as [e|ih]; [done|].
  rewrite !bind_inr.
  destruct (checks (delete key options) now) as [e|[]]; [done|].
  rewrite !bind_inr. by simpl.
Qed.

Lemma falsy_option_is_missing_witness :
  "interval" ∈ option_names ∧ truthy (VNum 0) = false ∧
  same_outcome (create (<["interval" := VNum 0]> minutely_options) "generated" 0)
               (create (delete "interval" minutely_options) "generated" 0).
Proof.
  assert ("interval" ∈ option_names) as H1.
  { unfold option_names, properties. simpl. rewrite !elem_of_cons. tauto. }
  assert (truthy (VNum 0) = false) as H2 by reflexivity.
  split_and!; [exact H1 | exact H2 |].
  exact (falsy_option_is_missing minutely_options "interval" (VNum 0)
           "generated" 0 H1 H2).
Defined.

(** *** Weekdays *)

(** Every name of the table of days is a weekday of the package. *)
Lemma day_name_is_weekday d name :
  days !! d = Some name → is_Some (RRule.weekday_of_name name).
Proof.
  intros Hname. apply elem_of_list_to_map_2 in Hname.
  repeat (apply elem_of_cons in Hname as [[= -> ->]|Hname]; [by eexists|]).
  by apply elem_of_nil in Hname.
Qed.

Lemma day_key_has_weekday d :
  is_Some (days !! d) → is_Some (rrule_day (VStr d)).
Proof.
  intros [name Hname]. destruct (day_name_is_weekday d name Hname) as [day Hday].
  exists day. unfold rrule_day, in_table. simpl. rewrite Hname. simpl. done.
Qed.

Lemma day_keys_have_weekdays l :
  Forall (λ v, ∃ d, v = VStr d ∧ is_Some (days !! d)) l →
  Forall2 (λ v day, rrule_day v = Some day) l (omap rrule_day l).
Proof.
  induction 1 as [|v l (d & -> & Hd) _ IH]; simpl; [constructor|].
  destruct (day_key_has_weekday d Hd) as [day Hday]. rewrite Hday.
  by constructor.
Qed.

(** X4: the weekdays of the rule of a constructed task.  A [weekDay] that is
    a key of the table of days gives the rule the day of that key alone,
    whatever [weekDays] holds.  Without a [weekDay], an array [weekDays]
    whose entries are keys of the table gives the rule the days of its
    entries, each of them and in their order.  The names the table holds
    are all weekdays of the package. *)
Theorem weekdays_reach_the_rule options fresh now task :
  create options fresh now = inr task →
  (∀ d name, options !!! "weekDay" = VStr d → days !! d = Some name →
        ∃ day, RRule.weekday_of_name name = Some day ∧
               RRule.byweekday (adaptee task) = [day]) ∧
  (∀ l, truthy (options !!! "weekDay") = false →
        options !!! "weekDays" = VArray l →
        Forall (λ v, ∃ d, v = VStr d ∧ is_Some (days !! d)) l →
        Forall2 (λ v day, rrule_day v = Some day) l
                (RRule.byweekday (adaptee task))).
Proof.
  intros (_ & _ & ->)%create_inr.
  unfold written_rule. cbn [RRule.byweekday].
  split.
  - intros d name Hd Hname.
    destruct (day_name_is_weekday d name Hname) as [day Hday].
    exists day. split; [done|].
    assert (d ≠ EmptyString) as Hne.
    { intros ->. apply elem_of_list_to_map_2 in Hname.
      repeat (apply elem_of_cons in Hname as [[=]|Hname]).
      by apply elem_of_nil in Hname. }
    apply String.eqb_neq in Hne.
    rewrite Hd. unfold JS.or, rrule_day, in_table. simpl.
    rewrite Hne. simpl. rewrite Hne. simpl. rewrite Hname. simpl.
    by rewrite Hday.
  - intros l Hnone Hl Hkeys. rewrite Hl. unfold JS.or. rewrite Hnone. simpl.
    by apply day_keys_have_weekdays.
Qed.

Lemma weekdays_reach_the_rule_witness :
  create (<["weekDays" := VArray [VStr "mo"; VStr "fr"]]> minutely_options)
         "generated" 0
  = inr (task_of (<["weekDays" := VArray [VStr "mo"; VStr "fr"]]> minutely_options) 0) ∧
  truthy (<["weekDays" := VArray [VStr "mo"; VStr "fr"]]> minutely_options
          !!! "weekDay") = false ∧
  <["weekDays" := VArray [VStr "mo"; VStr "fr"]]> minutely_options !!! "weekDays"
  = VArray [VStr "mo"; VStr "fr"] ∧
  Forall (λ v, ∃ d, v = VStr d ∧ is_Some (days !! d)) [VStr "mo"; VStr "fr"] ∧
  Forall2 (λ v day, rrule_day v = Some day) [VStr "mo"; VStr "fr"]
          (RRule.byweekday
             (adaptee (task_of (<["weekDays" := VArray [VStr "mo"; VStr "fr"]]>
                                  minutely_options) 0))).
Proof.
  assert (create (<["weekDays" := VArray [VStr "mo"; VStr "fr"]]> minutely_options)
                 "generated" 0
          = inr (task_of (<["weekDays" := VArray [VStr "mo"; VStr "fr"]]>
                            minutely_options) 0)) as H
    by (vm_compute; reflexivity).
  assert (truthy (<["weekDays" := VArray [VStr "mo"; VStr "fr"]]> minutely_options
                  !!! "weekDay") = false) as Hnone
    by (vm_compute; reflexivity).
  assert (<["weekDays" := VArray [VStr "mo"; VStr "fr"]]> minutely_options
          !!! "weekDays" = VArray [VStr "mo"; VStr "fr"]) as Hl
    by (vm_compute; reflexivity).
  assert (Forall (λ v, ∃ d, v = VStr d ∧ is_Some (days !! d))
                 [VStr "mo"; VStr "fr"]) as Hkeys.
  { repeat constructor; eexists; (split; [reflexivity|]); vm_compute; eauto. }
  destruct (weekdays_reach_the_rule _ _ _ _ H) as [_ Hdays].
  split_and!; [exact H | exact Hnone | exact Hl | exact Hkeys |].
  exact (Hdays _ Hnone Hl Hkeys).
Defined.

(** *** Time of day and week *)

(** X5: the time of day and the week of the rule of a constructed task.  A
    start time that is given is a string the time format matches: its
    hour and minute are the hour and minute of the rule, and its second,
    if it has one, the second of the rule; no match of the format is read
    that failed.  Without a start time the rule has none of the three.  A
    week that is a key of the table of weeks gives the rule the position
    of that key; without a week the rule has no position. *)
Theorem time_and_week_reach_the_rule options fresh now task :
  create options fresh now = inr task →
  (truthy (options !!! "startTime") = true →
   ∃ s h m sec,
     options !!! "startTime" = VStr s ∧ timeRegex_match s = Some (h, m, sec) ∧
     RRule.byhour (adaptee task) = Some h ∧
     RRule.byminute (adaptee task) = Some m ∧
     RRule.bysecond (adaptee task) = sec) ∧
  (truthy (options !!! "startTime") = false →
   RRule.byhour (adaptee task) = None ∧
   RRule.byminute (adaptee task) = None ∧
   RRule.bysecond (adaptee task) = None) ∧
  (∀ name n, options !!! "week" = VStr name → weeks !! name = Some n →
             RRule.bysetpos (adaptee task) = Some n) ∧
  (truthy (options !!! "week") = false →
   RRule.bysetpos (adaptee task) = None).
Proof.
  intros (Hchecks & _ & ->)%create_inr.
  rewrite checks_check_all in Hchecks. apply check_all_inr in Hchecks.
  unfold validations in Hchecks.
  do 7 apply Forall_cons in Hchecks as [_ Hchecks].
  apply Forall_cons in Hchecks as [Htime _].
  simpl in Htime.
  apply refuse_if_None in Htime.
  unfold written_rule, written_time.
  cbn [RRule.byhour RRule.byminute RRule.bysecond RRule.bysetpos].
  split_and!.
  - intros Hgiven. unfold JS.or in *. rewrite Hgiven in *.
    destruct (options !!! "startTime") as [| | | | | |s| | | |]; try done.
    simpl in Htime. apply negb_false_iff in Htime.
    apply bool_decide_eq_true in Htime as [[[h m] sec] Hmatch].
    exists s, h, m, sec. simpl. simpl in Hgiven. rewrite Hgiven, Hmatch. done.
  - intros Hnone. unfold JS.or. by rewrite Hnone.
  - intros name n Hweek Hn.
    assert (String.eqb name EmptyString = false) as Hne.
    { apply String.eqb_neq. intros ->. apply elem_of_list_to_map_2 in Hn.
      repeat (apply elem_of_cons in Hn as [[=]|Hn]).
      by apply elem_of_nil in Hn. }
    rewrite Hweek. unfold JS.or. simpl. rewrite Hne. simpl. rewrite Hne. simpl.
    exact Hn.
  - intros Hnone. unfold JS.or. by rewrite Hnone.
Qed.

Lemma time_and_week_reach_the_rule_witness :
  create (<["startTime" := VStr "09:30"]> (<["week" := VStr "last"]> minutely_options))
         "generated" 0
  = inr (task_of (<["startTime" := VStr "09:30"]>
                    (<["week" := VStr "last"]> minutely_options)) 0) ∧
  (truthy (<["startTime" := VStr "09:30"]>
             (<["week" := VStr "last"]> minutely_options) !!! "startTime") = true →
   ∃ s h m sec,
     <["startTime" := VStr "09:30"]>
       (<["week" := VStr "last"]> minutely_options) !!! "startTime" = VStr s ∧
     timeRegex_match s = Some (h, m, sec) ∧
     RRule.byhour
       (adaptee (task_of (<["startTime" := VStr "09:30"]>
                            (<["week" := VStr "last"]> minutely_options)) 0))
     = Some h ∧
     RRule.byminute
       (adaptee (task_of (<["startTime" := VStr "09:30"]>
                            (<["week" := VStr "last"]> minutely_options)) 0))
     = Some m ∧
     RRule.bysecond
       (adaptee (task_of (<["startTime" := VStr "09:30"]>
                            (<["week" := VStr "last"]> minutely_options)) 0))
     = sec).
Proof.
  assert (create (<["startTime" := VStr "09:30"]>
                    (<["week" := VStr "last"]> minutely_options)) "generated" 0
          = inr (task_of (<["startTime" := VStr "09:30"]>
                            (<["week" := VStr "last"]> minutely_options)) 0)) as H
    by (vm_compute; reflexivity).
  split; [exact H|].
  destruct (time_and_week_reach_the_rule _ _ _ _ H) as [Htime _]. exact Htime.
Defined.

End TaskMore.


(** ** The scheduler: its methods one by one *)

Module SchedulerMore.

Import XP Scheduler Statements More RRuleTheory TaskTheory SchedulerTheory.

(** *** The constructor *)

(** X6: on a host whose clock is not negative, the constructor takes the
    interval of the options when it is a positive integer, takes 60000
    when the option is missing or falsy (0 included), and refuses, with
    the error of the field interval, every other value; the scheduler
    starts with no task, no timer, and [latest] at the instant of its
    construction. *)
Theorem interval_defaults_to_a_minute options now :
  0 ≤ now →
  (truthy (options !!! "interval") = false →
   initialize options now = inr (State ∅ ∅ now 60000 ∅ 0%nat now [])) ∧
  (∀ n, options !!! "interval" = VNum n → 0 < n →
        initialize options now = inr (State ∅ ∅ now n ∅ 0%nat now [])) ∧
  (truthy (options !!! "interval") = true →
   isInt_notNegative (options !!! "interval") = false →
   initialize options now = inl (ValidationError "interval" "number")).
Proof.
  intros Hnow.
  assert (initialize options now
          = do _ <- check interval_property (options !!! "interval" <||> VNum 60000);
            inr (State ∅ ∅ now
                   (default 0 (as_num (options !!! "interval" <||> VNum 60000)))
                   ∅ 0%nat now [])) as ->.
  { unfold initialize. rewrite assign_fresh by done. unfold check at 1.
    cbn [p_name p_validate latest_property isInt_notNegative].
    assert ((0 <=? now) = true) as -> by lia. cbn [negb refuse_if].
    rewrite !bind_inr. rewrite assign_fresh by done.
    destruct (check interval_property _) as [?|[]]; [done|].
    rewrite !bind_inr. cbn [p_name interval_property latest_property].
    rewrite lookup_total_insert_eq.
    rewrite lookup_total_insert_ne by done. by rewrite lookup_total_insert_eq. }
  unfold check. cbn [p_name p_validate interval_property].
  split_and!.
  - intros Hfalsy. unfold JS.or. by rewrite Hfalsy.
  - intros n -> Hn. unfold JS.or. simpl.
    assert ((n =? 0) = false) as -> by lia. simpl.
    by assert ((0 <=? n) = true) as -> by lia.
  - intros Htruthy Hrefused. unfold JS.or. rewrite Htruthy.
    by rewrite Hrefused.
Qed.

Lemma interval_defaults_to_a_minute_witness :
  0 ≤ 0 ∧ initialize ∅ 0 = inr initial.
Proof.
  assert (0 ≤ 0) as H by lia.
  split; [exact H|].
  destruct (interval_defaults_to_a_minute ∅ 0 H) as [Hdefault _].
  exact (Hdefault eq_refl).
Defined.

(** *** [remove] *)

Lemma remove_absent key σ :
  key ≠ EmptyString → tasks σ !! key = None → timers σ !! key = None →
  remove (VStr key) σ = (σ, inr VNull).
Proof.
  intros Hkey Hnotask Hnotimer. unfold remove. simpl.
  destruct (String.eqb_spec key EmptyString); [done|]. simpl.
  rewrite Hnotimer. unfold set_timers, set_tasks. simpl.
  rewrite !delete_id by done. by destruct σ.
Qed.

(** X7: removing twice is removing once: the second call finds neither task
    nor handle and leaves the state as the first left it, with the same
    answer.  (A malformed identity is refused both times and the state is
    untouched.) *)
Theorem remove_twice id σ :
  remove id (remove id σ).1 = remove id σ.
Proof.
  destruct (remove_cases id σ)
    as [[Hbad Heq]|(key & -> & Hkey & Hres & Ht & Htm & _)].
  { rewrite Heq. simpl. done. }
  rewrite (surjective_pairing (remove (VStr key) σ)) at 2.
  rewrite Hres. apply remove_absent; [done|..].
  - rewrite Ht. apply lookup_delete_eq.
  - rewrite Htm. apply lookup_delete_eq.
Qed.

(** *** [schedule] *)

(** The identity of a constructed task is empty only if the generated
    one is. *)
Lemma created_identity options fresh now task :
  Task.create options fresh now = inr task → fresh ≠ EmptyString →
  Task.id task ≠ EmptyString.
Proof.
  rewrite create_written. intros H Hfresh.
  destruct (Task.identify options fresh) as [?|ih] eqn:Hid; [done|].
  rewrite bind_inr in H.
  destruct (checks options now) as [?|[]]; [done|]. rewrite bind_inr in H.
  injection H as <-. simpl.
  unfold Task.identify in Hid.
  destruct (options !!! "id") as [| | | | | |s| | | |];
    try (rewrite bind_inl in Hid; discriminate).
  1,2: rewrite bind_inr in Hid;
       destruct (options !!! "handler"); try done; by injection Hid as <-.
  simpl in Hid. destruct (String.eqb_spec s EmptyString); simpl in Hid; [done|].
  destruct (options !!! "handler"); try done. by injection Hid as <-.
Qed.

Lemma schedule_effect lib options fresh now σ task :
  fresh ≠ EmptyString →
  Task.create options fresh now = inr task →
  (schedule lib options fresh now σ).2 = inr task ∧
  tasks (schedule lib options fresh now σ).1
  = <[Task.id task := task]> (tasks σ) ∧
  timers (schedule lib options fresh now σ).1
  = match rearm lib task now σ with
    | Some _ => <[Task.id task := next_handle σ]> (delete (Task.id task) (timers σ))
    | None => delete (Task.id task) (timers σ)
    end ∧
  armed (schedule lib options fresh now σ).1
  = (match rearm lib task now σ with
     | Some d => <[next_handle σ := (task, now + (d - now))]>
     | None => λ m, m
     end)
      (match timers σ !! Task.id task with
       | Some h => delete h (armed σ)
       | None => armed σ
       end) ∧
  latest (schedule lib options fresh now σ).1 = latest σ ∧
  interval (schedule lib options fresh now σ).1 = interval σ ∧
  (tasks σ !! Task.id task = None →
   size (tasks (schedule lib options fresh now σ).1) = S (size (tasks σ))).
Proof.
  intros Hfresh Hcreate.
  pose proof (created_identity _ _ _ _ Hcreate Hfresh) as Hid.
  unfold schedule. rewrite Hcreate.
  destruct (remove_cases (VStr (Task.id task)) σ)
    as [[Hempty _]|(key & [= <-] & _ & Hres & Ht & Htm & Hl & Hi & _ & Hn & Harmed)].
  { simpl in Hempty. by destruct (String.eqb_spec (Task.id task) EmptyString). }
  destruct (remove (VStr (Task.id task)) σ) as [σ1 r]. simpl in *. subst r.
  simpl. set (σ2 := set_tasks _ σ1).
  assert (armed σ1 = match timers σ !! Task.id task with
                     | Some h => delete h (armed σ)
                     | None => armed σ
                     end) as Harmed1.
  { by destruct (timers σ !! Task.id task); destruct Harmed. }
  assert (rearm lib task now σ2 = rearm lib task now σ) as Hrearm.
  { unfold rearm. simpl. by rewrite Hl, Hi. }
  destruct (handleTask_cases lib task now σ2) as [(Ht2 & Hl2 & Hi2 & _) Hcases].
  assert (tasks (_handleTask lib task now σ2) = <[Task.id task := task]> (tasks σ))
    as Htasks.
  { rewrite Ht2. simpl. rewrite Ht. apply insert_delete_eq. }
  rewrite <- Hrearm. unfold rearm.
  destruct Hcases as [(d & Hd & Hw & Htm2 & Har2 & _)|(Hno & Htm2 & Har2 & _)].
  - rewrite Hd. simpl.
    assert ((latest σ1 + interval σ1 <? d) = false) as -> by (simpl in Hw; lia).
    simpl in *. rewrite Htm2, Har2, Htm, Hn, Harmed1, Hl2, Hi2.
    split_and!; try done.
    intros Hnew. rewrite Htasks. by apply map_size_insert_None.
  - assert (Task.nextDate lib task now ≫=
              (λ d, if latest σ2 + interval σ2 <? d then None else Some d) = None)
      as ->.
    { destruct Hno as [->|(d & -> & Hlt)]; [done|]. simpl.
      by assert ((latest σ1 + interval σ1 <? d) = true) as -> by (simpl in Hlt; lia). }
    simpl in *. rewrite Htm2, Har2, Htm, Harmed1, Hl2, Hi2.
    split_and!; try done.
    intros Hnew. rewrite Htasks. by apply map_size_insert_None.
Qed.

(** X8: with a generated identity that is not empty, [schedule] fails only
    when the constructor of the task does.  When it succeeds the task is
    registered under its identity; the handle the map held for the
    identity is dropped and its timer cleared; a timer is set, and its
    handle recorded, exactly when the task has a next date no later than
    [latest + interval]; the window is as before.  A new identity makes
    the registry one entry larger. *)
Theorem schedule_registers lib options fresh now σ task :
  fresh ≠ EmptyString →
  Task.create options fresh now = inr task →
  (schedule lib options fresh now σ).2 = inr task ∧
  tasks (schedule lib options fresh now σ).1
  = <[Task.id task := task]> (tasks σ) ∧
  timers (schedule lib options fresh now σ).1
  = match rearm lib task now σ with
    | Some _ => <[Task.id task := next_handle σ]> (delete (Task.id task) (timers σ))
    | None => delete (Task.id task) (timers σ)
    end ∧
  armed (schedule lib options fresh now σ).1
  = (match rearm lib task now σ with
     | Some d => <[next_handle σ := (task, now + (d - now))]>
     | None => λ m, m
     end)
      (match timers σ !! Task.id task with
       | Some h => delete h (armed σ)
       | None => armed σ
       end) ∧
  latest (schedule lib options fresh now σ).1 = latest σ ∧
  interval (schedule lib options fresh now σ).1 = interval σ ∧
  (tasks σ !! Task.id task = None →
   size (tasks (schedule lib options fresh now σ).1) = S (size (tasks σ))).
Proof. apply schedule_effect. Qed.

Lemma schedule_registers_witness :
  "generated" ≠ EmptyString ∧
  Task.create once_options "generated" 10 = inr (task_of once_options 10) ∧
  tasks (schedule RRule.plain_series once_options "generated" 10 initial).1
  = <[Task.id (task_of once_options 10) := task_of once_options 10]> (tasks initial).
Proof.
  assert ("generated" ≠ EmptyString) as H1 by discriminate.
  assert (Task.create once_options "generated" 10 = inr (task_of once_options 10))
    as H2 by (vm_compute; reflexivity).
  split_and!; [exact H1 | exact H2 |].
  destruct (schedule_registers RRule.plain_series _ _ _ initial _ H1 H2)
    as (_ & Htasks & _).
  exact Htasks.
Defined.

(** *** [schedule] followed by [remove] *)

Lemma fire_task lib h now σ σ' :
  fire lib h now σ = Some σ' →
  ∃ task due, armed σ !! h = Some (task, due) ∧ due ≤ now ∧
              σ' = _handleTimeout lib task now (disarm h σ).
Proof.
  unfold fire. destruct (armed σ !! h) as [[task due]|]; [|done].
  destruct (due <=? now) eqn:Hdue; [|done]. intros [= <-].
  exists task, due. split_and!; [done | lia | done].
Qed.

Lemma no_handler_no_call id events :
  Forall (λ e, is_handler e = false) events →
  List.filter (is_call id) events = [].
Proof.
  induction 1 as [|e events He _ IH]; [done|].
  simpl. rewrite IH. by destruct e.
Qed.

(** The callback of a timer reads the next date, perhaps sets a timer,
    and calls the handler of its task last. *)
Lemma handleTimeout_trace lib task now σ :
  ∃ events,
    trace (_handleTimeout lib task now σ)
    = trace σ ++ events ++ [Handler (Task.id task) (Task.handler task)] ∧
    Forall (λ e, is_handler e = false) events.
Proof.
  unfold _handleTimeout. simpl.
  destruct (handleTask_cases lib task now σ)
    as [_ [(d & _ & _ & _ & _ & _ & ->)|(_ & _ & _ & _ & ->)]];
    eexists; rewrite <- app_assoc; (split; [reflexivity|]);
    repeat constructor.
Qed.

(** X9: if no timer is armed for an identity, scheduling a task under it and
    removing it again leaves neither the task nor a timer for it: whichever
    timer fires afterwards, the handler of the task is not called. *)
Theorem schedule_then_remove lib options fresh now σ task :
  fresh ≠ EmptyString →
  Task.create options fresh now = inr task →
  no_timer_for (Task.id task) σ →
  let σ1 := (schedule lib options fresh now σ).1 in
  let σ2 := (remove (VStr (Task.id task)) σ1).1 in
  tasks σ2 !! Task.id task = None ∧
  timers σ2 !! Task.id task = None ∧
  no_timer_for (Task.id task) σ2 ∧
  ∀ h now' σ3, fire lib h now' σ2 = Some σ3 →
               handler_calls (Task.id task) (emitted σ2 σ3) = 0%nat.
Proof.
  intros Hfresh Hcreate Hnone σ1 σ2.
  pose proof (created_identity _ _ _ _ Hcreate Hfresh) as Hid.
  destruct (schedule_effect lib _ _ _ σ _ Hfresh Hcreate)
    as (_ & _ & Htm1 & Har1 & _).
  fold σ1 in Htm1, Har1.
  destruct (remove_cases (VStr (Task.id task)) σ1)
    as [[Hempty _]|(key & [= <-] & _ & _ & Ht2 & Htm2 & _ & _ & _ & _ & Har2)].
  { simpl in Hempty. by destruct (String.eqb_spec (Task.id task) EmptyString). }
  fold σ2 in Ht2, Htm2, Har2.
  assert (∀ h x, armed σ2 !! h = Some x → armed σ !! h = Some x) as Hsub.
  { intros h x. rewrite Htm1 in Har2. rewrite Har1 in Har2.
    destruct (rearm lib task now σ) as [d|].
    - rewrite lookup_insert_eq in Har2. destruct Har2 as [-> _].
      rewrite delete_insert_eq.
      intros [_ Hx]%lookup_delete_Some.
      destruct (timers σ !! Task.id task); [|done].
      apply lookup_delete_Some in Hx. tauto.
    - rewrite lookup_delete_eq in Har2. destruct Har2 as [-> _].
      destruct (timers σ !! Task.id task); [|done].
      intros Hx. apply lookup_delete_Some in Hx. tauto. }
  assert (no_timer_for (Task.id task) σ2) as Hnone2.
  { intros h t due Hh. eapply Hnone. by apply Hsub. }
  split_and!.
  - rewrite Ht2. apply lookup_delete_eq.
  - rewrite Htm2. apply lookup_delete_eq.
  - done.
  - intros h now' σ3 (t & due & Hh & _ & ->)%fire_task.
    specialize (Hnone2 h t due Hh).
    destruct (handleTimeout_trace lib t now' (disarm h σ2)) as (events & Htr & Hev).
    unfold emitted. rewrite Htr. change (trace (disarm h σ2)) with (trace σ2).
    rewrite drop_app_length. unfold handler_calls.
    rewrite List.filter_app. simpl.
    destruct (String.eqb_spec (Task.id task) (Task.id t)) as [Heq|_];
      [by rewrite Heq in Hnone2|].
    rewrite length_app. simpl.
    by rewrite (no_handler_no_call _ _ Hev).
Qed.

Lemma schedule_then_remove_witness :
  "generated" ≠ EmptyString ∧
  Task.create once_options "generated" 10 = inr (task_of once_options 10) ∧
  no_timer_for (Task.id (task_of once_options 10)) initial ∧
  tasks (remove (VStr (Task.id (task_of once_options 10)))
           (schedule RRule.plain_series once_options "generated" 10 initial).1).1
    !! Task.id (task_of once_options 10) = None.
Proof.
  assert ("generated" ≠ EmptyString) as H1 by discriminate.
  assert (Task.create once_options "generated" 10 = inr (task_of once_options 10))
    as H2 by (vm_compute; reflexivity).
  assert (no_timer_for (Task.id (task_of once_options 10)) initial) as H3.
  { intros h task due Hh. simpl in Hh. by rewrite lookup_empty in Hh. }
  split_and!; [exact H1 | exact H2 | exact H3 |].
  destruct (schedule_then_remove RRule.plain_series _ _ _ initial _ H1 H2 H3)
    as (Hgone & _).
  exact Hgone.
Defined.

End SchedulerMore.

(** ** Runs of the scheduler: what is emitted, what is kept *)

Module SchedulerRuns.

Import XP Scheduler Statements More RRuleTheory TaskTheory SchedulerTheory.

Lemma timers_set_app a b :
  timers_set (a ++ b) = (timers_set a + timers_set b)%nat.
Proof. unfold timers_set. by rewrite List.filter_app, length_app. Qed.

Lemma handlers_called_app a b :
  handlers_called (a ++ b) = (handlers_called a + handlers_called b)%nat.
Proof. unfold handlers_called. by rewrite List.filter_app, length_app. Qed.

Lemma next_date_reads_app a b :
  next_date_reads (a ++ b) = next_date_reads a ++ next_date_reads b.
Proof. apply omap_app. Qed.

Lemma delays_app P a b : delays P a → delays P b → delays P (a ++ b).
Proof. intros. by apply Forall_app. Qed.

(** What [_handleTask] leaves alone and what it emits: one read of the
    next date and at most one timer, with a delay that ends in the
    window; the timers already armed stay armed. *)
Lemma handleTask_effect lib task now σ :
  let σ' := _handleTask lib task now σ in
  ∃ events,
    trace σ' = trace σ ++ events ∧
    next_date_reads events = [Task.id task] ∧
    Forall (λ e, is_clearTimeout e = false ∧ is_handler e = false) events ∧
    (timers_set events ≤ 1)%nat ∧
    (latest σ ≤ now → delays (λ d, d ≤ interval σ) events) ∧
    (armed_issued σ →
     armed σ ⊆ armed σ' ∧
     size (armed σ') = (size (armed σ) + timers_set events)%nat ∧
     armed_issued σ').
Proof.
  destruct (handleTask_cases lib task now σ)
    as [_ [(d & Hd & Hw & _ & Har & Hn & Htr)|(_ & _ & Har & Hn & Htr)]];
    cbv zeta; eexists; (split; [exact Htr|]).
  - split; [done|]. split; [by repeat constructor|]. split; [done|]. split.
    + intros Hlatest. repeat constructor; lia.
    + intros Hissued. unfold armed_issued in *.
      assert (armed σ !! next_handle σ = None) as Hfresh.
      { destruct (armed σ !! next_handle σ) eqn:Hh; [|done].
        assert (next_handle σ < next_handle σ)%nat by (apply Hissued; eauto).
        lia. }
      rewrite Har, Hn. split_and!.
      * by apply insert_subseteq.
      * rewrite map_size_insert_None by done. unfold timers_set. simpl. lia.
      * intros h. destruct (decide (next_handle σ = h)) as [<-|Hne].
        -- intros _. lia.
        -- rewrite lookup_insert_ne by done. intros ?%Hissued. lia.
  - split; [done|]. split; [by repeat constructor|].
    split; [unfold timers_set; simpl; lia|]. split.
    + intros _. by repeat constructor.
    + intros Hissued. rewrite Har. split_and!; [done|..].
      * unfold timers_set. simpl. lia.
      * unfold armed_issued. by rewrite Har, Hn.
Qed.

(** The visit of a poll tick, task after task. *)
Lemma poll_fold_effect lib now (l : list (string * Task.t)) σ :
  let σ' := foldl (λ s entry, _handleTask lib entry.2 now s) σ l in
  (tasks σ' = tasks σ ∧ latest σ' = latest σ ∧ interval σ' = interval σ ∧
   clock σ' = clock σ) ∧
  ∃ events,
    trace σ' = trace σ ++ events ∧
    next_date_reads events = (λ entry, Task.id entry.2) <$> l ∧
    Forall (λ e, is_clearTimeout e = false ∧ is_handler e = false) events ∧
    (timers_set events ≤ length l)%nat ∧
    (latest σ ≤ now → delays (λ d, d ≤ interval σ) events) ∧
    (armed_issued σ →
     armed σ ⊆ armed σ' ∧
     size (armed σ') = (size (armed σ) + timers_set events)%nat ∧
     armed_issued σ').
Proof.
  revert σ. induction l as [|[id task] l IH]; intros σ; simpl.
  { split; [done|]. exists []. rewrite app_nil_r.
    split_and!;
      [done | done | by constructor | unfold timers_set; simpl; lia
      | intros _; by constructor |].
    intros Hissued.
    split_and!; [done | unfold timers_set; simpl; lia | done]. }
  destruct (handleTask_cases lib task now σ) as [(Ht & Hl & Hi & Hc) _].
  destruct (handleTask_effect lib task now σ)
    as (ev1 & Htr1 & Hr1 & Hq1 & Hn1 & Hd1 & Ha1).
  destruct (IH (_handleTask lib task now σ))
    as ((Ht' & Hl' & Hi' & Hc') & ev2 & Htr2 & Hr2 & Hq2 & Hn2 & Hd2 & Ha2).
  split; [split_and!; congruence|].
  exists (ev1 ++ ev2). split_and!.
  - by rewrite Htr2, Htr1, <- app_assoc.
  - by rewrite next_date_reads_app, Hr1, Hr2.
  - by apply Forall_app.
  - rewrite timers_set_app. lia.
  - intros Hlatest. apply delays_app; [by apply Hd1|].
    rewrite <- Hi. apply Hd2. by rewrite Hl.
  - intros Hissued. destruct (Ha1 Hissued) as (Hs1 & Hz1 & Hi1).
    destruct (Ha2 Hi1) as (Hs2 & Hz2 & Hi2).
    split_and!; [by etrans | rewrite timers_set_app; lia | done].
Qed.

(** [remove] sets no timer and calls no handler; it disarms at most the
    timer whose handle the identity has. *)
Lemma remove_effect id σ :
  let σ' := (remove id σ).1 in
  (interval σ' = interval σ ∧ latest σ' = latest σ ∧ clock σ' = clock σ ∧
   next_handle σ' = next_handle σ) ∧
  armed σ' ⊆ armed σ ∧
  ∃ events,
    trace σ' = trace σ ++ events ∧
    Forall (λ e, is_setTimeout e = false ∧ is_handler e = false) events ∧
    timers_set events = 0%nat ∧ handlers_called events = 0%nat.
Proof.
  destruct (remove_cases id σ)
    as [[_ ->]|(key & -> & _ & _ & _ & _ & Hl & Hi & Hc & Hn & Ha)]; simpl.
  { split; [done|]. split; [done|]. exists []. by rewrite app_nil_r. }
  split; [done|].
  destruct (timers σ !! key) as [h|]; destruct Ha as [Ha Htr]; rewrite Ha.
  - split; [apply delete_subseteq|]. exists [ClearTimeout h].
    split_and!; [done | by repeat constructor | done | done].
  - split; [done|]. exists []. by rewrite app_nil_r.
Qed.

Lemma subseteq_issued (σ σ' : state) :
  armed σ' ⊆ armed σ → next_handle σ' = next_handle σ →
  armed_issued σ → armed_issued σ'.
Proof.
  intros Hsub Hn Hissued h [x Hx]. rewrite Hn. apply Hissued.
  exists x. by eapply lookup_weaken.
Qed.

(** One step of a run: the clock moves to the instant of the step, the
    interval stays, events are appended; the timers it sets have delays
    of at most the interval; each handler it calls uses up an armed
    timer. *)
Lemma step_effect lib now a σ σ' :
  step lib now a σ = Some σ' →
  (clock σ ≤ now ∧ clock σ' = now ∧ interval σ' = interval σ ∧
   latest σ' = match a with Poll => now | _ => latest σ end ∧
   match a with
   | Poll | Fire _ => tasks σ' = tasks σ
   | _ => True
   end) ∧
  ∃ events,
    trace σ' = trace σ ++ events ∧
    (latest σ ≤ clock σ → delays (λ d, d ≤ interval σ) events) ∧
    (armed_issued σ →
     (handlers_called events + size (armed σ')
      ≤ size (armed σ) + timers_set events)%nat ∧
     armed_issued σ').
Proof.
  unfold step. destruct (clock σ <=? now) eqn:Hnow; [|done].
  apply Z.leb_le in Hnow.
  destruct a as [options fresh|id| |h].
  - (* schedule *)
    intros [= <-]. unfold schedule.
    destruct (Task.create options fresh now) as [e|task]; simpl.
    { split; [done|]. exists []. rewrite app_nil_r. split_and!; [done|by constructor|].
      intros Hissued. split; [unfold handlers_called, timers_set; simpl; lia | done]. }
    destruct (remove_cases (VStr (Task.id task)) (set_clock now σ))
      as [[_ Hr]|(key & [= <-] & _ & Hres & _)].
    { rewrite Hr. simpl. split; [done|]. exists []. rewrite app_nil_r.
      split_and!; [done|by constructor|].
      intros Hissued. split; [unfold handlers_called, timers_set; simpl; lia | done]. }
    destruct (remove_effect (VStr (Task.id task)) (set_clock now σ))
      as ((Hi1 & Hl1 & Hc1 & Hn1) & Hsub1 & ev1 & Htr1 & Hq1 & Hts1 & Hhc1).
    destruct (remove (VStr (Task.id task)) (set_clock now σ)) as [σ1 r].
    simpl in *. subst r.
    set (σ2 := set_tasks _ σ1).
    destruct (handleTask_cases lib task now σ2) as [(Ht2 & Hl2 & Hi2 & Hc2) _].
    destruct (handleTask_effect lib task now σ2)
      as (ev2 & Htr2 & _ & Hq2 & _ & Hd2 & Ha2).
    simpl in *. split.
    { split_and!; [done | congruence | congruence | congruence | done]. }
    exists (ev1 ++ ev2). split_and!.
    + by rewrite Htr2, Htr1, <- app_assoc.
    + intros Hlatest. apply delays_app.
      * clear -Hq1. induction Hq1 as [|e ev [He _] _ IH]; constructor; [|done].
        by destruct e.
      * rewrite <- Hi1. apply Hd2. lia.
    + intros Hissued.
      assert (armed_issued σ2) as Hissued2.
      { intros h' [x Hx]. unfold σ2 in Hx. simpl in Hx.
        change (next_handle σ2) with (next_handle σ1). rewrite Hn1.
        apply Hissued. exists x. by eapply lookup_weaken. }
      destruct (Ha2 Hissued2) as (_ & Hz2 & Hi2'). split; [|done].
      rewrite handlers_called_app, timers_set_app, Hts1, Hhc1, Hz2.
      change (armed σ2) with (armed σ1).
      pose proof (map_subseteq_size _ _ Hsub1) as Hsize.
      assert (handlers_called ev2 = 0%nat) as ->.
      { clear -Hq2. unfold handlers_called.
        induction Hq2 as [|e ev [_ He] _ IH]; [done|]. simpl. by rewrite He. }
      lia.
  - (* remove *)
    intros [= <-].
    destruct (remove_effect id (set_clock now σ))
      as ((Hi1 & Hl1 & Hc1 & Hn1) & Hsub1 & ev1 & Htr1 & Hq1 & Hts1 & Hhc1).
    simpl in *. split; [done|]. exists ev1. split_and!; [done|..].
    + intros _. clear -Hq1.
      induction Hq1 as [|e ev [He _] _ IH]; constructor; [|done]. by destruct e.
    + intros Hissued. split.
      * rewrite Hts1, Hhc1. pose proof (map_subseteq_size _ _ Hsub1). lia.
      * by apply (subseteq_issued (set_clock now σ)).
  - (* poll *)
    intros [= <-]. unfold _handlePoll.
    destruct (poll_fold_effect lib now (map_to_list (tasks (set_clock now σ)))
                (set_latest now (set_clock now σ)))
      as ((Ht & Hl & Hi & Hc) & ev & Htr & _ & Hq & _ & Hd & Ha).
    simpl in *. split; [done|]. exists ev. split_and!; [done|..].
    + intros _. apply Hd. lia.
    + intros Hissued. destruct (Ha Hissued) as (_ & Hz & Hi'). split; [|done].
      rewrite Hz.
      assert (handlers_called ev = 0%nat) as ->; [|lia].
      clear -Hq. unfold handlers_called.
      induction Hq as [|e ev' [_ He] _ IH]; [done|]. simpl. by rewrite He.
  - (* fire *)
    unfold fire. simpl.
    destruct (armed σ !! h) as [[task due]|] eqn:Hh; [|done].
    destruct (due <=? now); [|done]. intros [= <-].
    unfold _handleTimeout.
    set (σ1 := disarm h (set_clock now σ)).
    destruct (handleTask_cases lib task now σ1) as [(Ht2 & Hl2 & Hi2 & Hc2) _].
    destruct (handleTask_effect lib task now σ1)
      as (ev2 & Htr2 & _ & Hq2 & _ & Hd2 & Ha2).
    simpl in *. split; [done|].
    exists (ev2 ++ [Handler (Task.id task) (Task.handler task)]). split_and!.
    + by rewrite Htr2, <- app_assoc.
    + intros Hlatest. apply delays_app; [apply Hd2; lia | by repeat constructor].
    + intros Hissued.
      assert (armed_issued σ1) as Hissued1.
      { intros h' [x Hx]. simpl in *. apply lookup_delete_Some in Hx as [_ Hx].
        apply Hissued. by exists x. }
      destruct (Ha2 Hissued1) as (_ & Hz2 & Hi2'). split; [|done].
      rewrite handlers_called_app, timers_set_app, Hz2. simpl.
      rewrite map_size_delete, Hh.
      assert (size (armed σ) ≠ 0)%nat.
      { intros Hzero. apply map_size_empty_inv in Hzero.
        rewrite Hzero in Hh. by rewrite lookup_empty in Hh. }
      assert (handlers_called ev2 = 0%nat) as ->.
      { clear -Hq2. unfold handlers_called.
        induction Hq2 as [|e ev [_ He] _ IH]; [done|]. simpl. by rewrite He. }
      unfold handlers_called, timers_set. simpl. lia.
Qed.

(** *** The steps of a run *)

(** X10: a step of a run is taken at an instant that is not before the clock,
    and moves the clock there.  No step changes the interval; only a poll
    tick moves [latest], to its instant; a poll tick and a timer that
    fires leave the registry as it is; the events are only appended, and
    no handle is issued twice. *)
Theorem steps_keep_the_interval lib now a σ σ' :
  step lib now a σ = Some σ' →
  clock σ ≤ now ∧ clock σ' = now ∧ interval σ' = interval σ ∧
  latest σ' = match a with Poll => now | _ => latest σ end ∧
  match a with
  | Poll | Fire _ => tasks σ' = tasks σ
  | _ => True
  end ∧
  trace σ `prefix_of` trace σ'.
Proof.
  intros ((Hnow & Hc & Hi & Hl & Ht) & events & Htr & _)%step_effect.
  split_and!; try done. by exists events.
Qed.

Lemma steps_keep_the_interval_witness :
  step RRule.plain_series 60000 Poll
    (after_script (scheduled_script minutely_options))
  = Some (after_script (scheduled_script minutely_options ++ [(60000, Poll)])) ∧
  latest (after_script (scheduled_script minutely_options ++ [(60000, Poll)]))
  = 60000.
Proof.
  assert (step RRule.plain_series 60000 Poll
            (after_script (scheduled_script minutely_options))
          = Some (after_script
                    (scheduled_script minutely_options ++ [(60000, Poll)])))
    as H by (vm_compute; reflexivity).
  destruct (steps_keep_the_interval _ _ _ _ _ H) as (_ & _ & _ & Hl & _).
  split; [exact H | exact Hl].
Defined.

(** *** Poll ticks *)

(** X11: a poll tick reads the next date of every registered task once, in the
    order of the registry, and sets at most one timer for each; it clears
    no timer and calls no handler, so that the timers armed before it are
    still armed after it; the registry and the interval are as before, and
    [latest] is the instant of the tick. *)
Theorem poll_reads_every_task lib now σ :
  armed_issued σ →
  let σ' := _handlePoll lib now σ in
  tasks σ' = tasks σ ∧ interval σ' = interval σ ∧ latest σ' = now ∧
  next_date_reads (emitted σ σ')
  = (λ entry, Task.id entry.2) <$> map_to_list (tasks σ) ∧
  Forall (λ e, is_clearTimeout e = false ∧ is_handler e = false)
         (emitted σ σ') ∧
  (timers_set (emitted σ σ') ≤ size (tasks σ))%nat ∧
  armed σ ⊆ armed σ' ∧
  size (armed σ') = (size (armed σ) + timers_set (emitted σ σ'))%nat.
Proof.
  intros Hissued. unfold _handlePoll.
  destruct (poll_fold_effect lib now (map_to_list (tasks σ)) (set_latest now σ))
    as ((Ht & Hl & Hi & _) & ev & Htr & Hr & Hq & Hn & _ & Ha).
  destruct (Ha Hissued) as (Hsub & Hz & _).
  simpl in *. unfold emitted. rewrite Htr, drop_app_length.
  split_and!; try done. by rewrite <- length_map_to_list.
Qed.

Lemma poll_reads_every_task_witness :
  armed_issued (after_script (scheduled_script minutely_options)) ∧
  next_date_reads
    (emitted (after_script (scheduled_script minutely_options))
       (_handlePoll RRule.plain_series 60000
          (after_script (scheduled_script minutely_options))))
  = (λ entry, Task.id entry.2) <$>
      map_to_list (tasks (after_script (scheduled_script minutely_options))).
Proof.
  assert (armed_issued (after_script (scheduled_script minutely_options))) as H.
  { intros h [x Hx].
    assert (reachable RRule.plain_series
              (after_script (scheduled_script minutely_options))) as Hreach
      by (apply script_reachable; vm_compute; discriminate).
    apply reachable_invariant in Hreach as [Hok _].
    by apply (ok_armed _ Hok h x). }
  destruct (poll_reads_every_task RRule.plain_series 60000 _ H)
    as (_ & _ & _ & Hreads & _).
  split; [exact H | exact Hreads].
Defined.

(** *** Timers *)

(** X12: in a run, no timer is set further ahead than the interval of the
    scheduler: a task is given a timer only for an occurrence no later
    than [latest + interval], and [latest] is never after the instant of
    the call. *)
Theorem timer_delays_within_interval lib σ :
  reachable lib σ →
  delays (λ d, d ≤ interval σ) (trace σ).
Proof.
  induction 1 as [options now σ Hinit|σ now a σ' Hreach IH Hstep].
  - apply initialize_cases in Hinit as (_ & _ & ->). by constructor.
  - apply reachable_invariant in Hreach as [[[_ Hlatest] _ _ _ _ _] _].
    apply step_effect in Hstep
      as ((_ & _ & Hi & _) & events & Htr & Hd & _).
    rewrite Htr, Hi. by apply delays_app; [|apply Hd].
Qed.

Lemma timer_delays_within_interval_witness :
  reachable RRule.plain_series (after_script fired_script) ∧
  delays (λ d, d ≤ interval (after_script fired_script))
         (trace (after_script fired_script)).
Proof.
  assert (reachable RRule.plain_series (after_script fired_script)) as H
    by (apply script_reachable; vm_compute; discriminate).
  split; [exact H | exact (timer_delays_within_interval _ _ H)].
Defined.

(** X13: in a run, a handler is called only by a timer that was set and not
    cleared: the handlers called so far and the timers still armed
    together are at most the timers set so far. *)
Theorem handlers_need_timers lib σ :
  reachable lib σ →
  (handlers_called (trace σ) + size (armed σ) ≤ timers_set (trace σ))%nat.
Proof.
  induction 1 as [options now σ Hinit|σ now a σ' Hreach IH Hstep].
  - apply initialize_cases in Hinit as (_ & _ & ->). simpl.
    rewrite map_size_empty. unfold handlers_called, timers_set. simpl. lia.
  - apply reachable_invariant in Hreach as [[_ _ _ _ Harmed _] _].
    apply step_effect in Hstep as (_ & events & Htr & _ & Ha).
    destruct Ha as [Hle _].
    { intros h [x Hx]. by apply (Harmed h x). }
    rewrite Htr, handlers_called_app, timers_set_app. lia.
Qed.

Lemma handlers_need_timers_witness :
  reachable RRule.plain_series (after_script fired_script) ∧
  (handlers_called (trace (after_script fired_script))
   + size (armed (after_script fired_script))
   ≤ timers_set (trace (after_script fired_script)))%nat.
Proof.
  assert (reachable RRule.plain_series (after_script fired_script)) as H
    by (apply script_reachable; vm_compute; discriminate).
  split; [exact H | exact (handlers_need_timers _ _ H)].
Defined.

End SchedulerRuns.

(** ** The older scheduler: one timer for each identity *)

Module LegacyTheory.

Import XP LegacyRun.

Lemma legacy_unschedule_cases id σ σ' b :
  Legacy.unschedule id σ = Some (σ', b) →
  ∃ key, id = VStr key ∧ key ≠ EmptyString ∧ b = true ∧
    σ' = Legacy.State (delete key (Legacy.scheduled σ))
           (match Legacy.scheduled σ !! key with
            | Some h => delete h (Legacy.armed σ)
            | None => Legacy.armed σ
            end)
           (Legacy.next_handle σ).
Proof.
  unfold Legacy.unschedule.
  destruct id as [| | | | | |key| | | |]; try done. simpl.
  destruct (String.eqb_spec key EmptyString) as [|Hkey]; [done|]. simpl.
  intros [= <- <-]. by exists key.
Qed.

Lemma legacy_schedule_cases date id handler fresh now σ σ' key :
  Legacy.schedule date id handler fresh now σ = Some (σ', key) →
  key = (if truthy id then default EmptyString (as_str id) else fresh) ∧
  σ' = Legacy.State
         (<[key := Legacy.next_handle σ]> (delete key (Legacy.scheduled σ)))
         (<[Legacy.next_handle σ := (handler, now + (date - now))]>
            (match Legacy.scheduled σ !! key with
             | Some h => delete h (Legacy.armed σ)
             | None => Legacy.armed σ
             end))
         (S (Legacy.next_handle σ)).
Proof.
  unfold Legacy.schedule.
  destruct (isNull id || negb (isDefined id) || isString_notEmpty id); [|done].
  set (k := if truthy id then default EmptyString (as_str id) else fresh).
  destruct (Legacy.scheduled σ !! k) as [h|] eqn:Hk; simpl.
  - destruct (Legacy.unschedule (VStr k) σ) as [[σ1 b]|] eqn:Hun; [|done].
    apply legacy_unschedule_cases in Hun as (k' & [= <-] & _ & _ & ->).
    simpl. intros [= <- <-]. by rewrite Hk.
  - intros [= <- <-]. rewrite Hk. by rewrite delete_id.
Qed.

(** Taking an identity out with its timer keeps the timers and the
    identities matched. *)
Lemma drop_consistent w key ls cs :
  consistent w →
  consistent
    (World (Legacy.State (delete key (Legacy.scheduled (core w)))
              (match Legacy.scheduled (core w) !! key with
               | Some h => delete h (Legacy.armed (core w))
               | None => Legacy.armed (core w)
               end)
              (Legacy.next_handle (core w)))
       (bound w) ls cs).
Proof.
  intros [Har Hb Hi]. split; simpl.
  - intros h. split.
    + intros Hh.
      assert (is_Some (Legacy.armed (core w) !! h) ∧
              Legacy.scheduled (core w) !! key ≠ Some h) as [Harm Hne].
      { destruct (Legacy.scheduled (core w) !! key) as [h0|] eqn:Hk.
        - destruct Hh as [x Hx]. apply lookup_delete_Some in Hx as [Hne Hx].
          split; [eauto | congruence].
        - split; [done | congruence]. }
      apply Har in Harm as [id Hid]. exists id.
      rewrite lookup_delete_ne; [done|]. intros <-. done.
    + intros [id Hid]. apply lookup_delete_Some in Hid as [Hne Hid].
      assert (is_Some (Legacy.armed (core w) !! h)) as [x Hx]
        by (apply Har; eauto).
      destruct (Legacy.scheduled (core w) !! key) as [h0|] eqn:Hk; [|eauto].
      exists x. rewrite lookup_delete_ne; [done|]. intros <-.
      apply Hb in Hk, Hid. congruence.
  - intros id h [Hne Hid]%lookup_delete_Some. by apply Hb.
  - intros h Hh. apply Hi.
    destruct (Legacy.scheduled (core w) !! key); [|done].
    destruct Hh as [x [_ Hx]%lookup_delete_Some]. eauto.
Qed.

(** A new timer for an identity that has none keeps them matched. *)
Lemma add_consistent w key x ls cs :
  consistent w →
  Legacy.scheduled (core w) !! key = None →
  consistent
    (World (Legacy.State
              (<[key := Legacy.next_handle (core w)]> (Legacy.scheduled (core w)))
              (<[Legacy.next_handle (core w) := x]> (Legacy.armed (core w)))
              (S (Legacy.next_handle (core w))))
       (<[Legacy.next_handle (core w) := key]> (bound w)) ls cs).
Proof.
  intros [Har Hb Hi] Hkey.
  assert (∀ id h, Legacy.scheduled (core w) !! id = Some h →
                  h ≠ Legacy.next_handle (core w)) as Hold.
  { intros id h Hid ->.
    assert (Legacy.next_handle (core w) < Legacy.next_handle (core w))%nat
      by (apply Hi, Har; eauto).
    lia. }
  split; simpl.
  - intros h. split.
    + destruct (decide (Legacy.next_handle (core w) = h)) as [<-|Hne].
      * intros _. exists key. apply lookup_insert_eq.
      * rewrite lookup_insert_ne by done. intros [id Hid]%Har.
        exists id. rewrite lookup_insert_ne; [done|]. intros <-. congruence.
    + intros [id Hid]. destruct (decide (key = id)) as [<-|Hne].
      * rewrite lookup_insert_eq in Hid. injection Hid as <-.
        rewrite lookup_insert_eq. eauto.
      * rewrite lookup_insert_ne in Hid by done.
        rewrite lookup_insert_ne by (intros <-; by apply (Hold id _ Hid)).
        apply Har. eauto.
  - intros id h. destruct (decide (key = id)) as [<-|Hne].
    + rewrite lookup_insert_eq. intros [= <-]. apply lookup_insert_eq.
    + rewrite lookup_insert_ne by done. intros Hid.
      rewrite lookup_insert_ne by (intros <-; by apply (Hold id _ Hid)).
      by apply Hb.
  - intros h. destruct (decide (Legacy.next_handle (core w) = h)) as [<-|Hne].
    + intros _. lia.
    + rewrite lookup_insert_ne by done. intros ?%Hi. lia.
Qed.

Lemma schedule_consistent date id handler fresh now w w' key :
  consistent w →
  schedule date id handler fresh now w = Some (w', key) →
  consistent w'.
Proof.
  intros Hcons. unfold schedule.
  destruct (Legacy.schedule date id handler fresh now (core w))
    as [[c k]|] eqn:Hs; [|done].
  simpl. intros [= <- <-].
  apply legacy_schedule_cases in Hs as [_ ->].
  pose proof (add_consistent
           (World (Legacy.State (delete k (Legacy.scheduled (core w)))
                     (match Legacy.scheduled (core w) !! k with
                      | Some h => delete h (Legacy.armed (core w))
                      | None => Legacy.armed (core w)
                      end)
                     (Legacy.next_handle (core w)))
              (bound w) (listeners w) (calls w))
           k (handler, now + (date - now)) (listeners w) (calls w)) as Hadd.
  simpl in Hadd. apply Hadd.
  - by apply drop_consistent.
  - apply lookup_delete_eq.
Qed.

Lemma unschedule_consistent id w w' b :
  consistent w → unschedule id w = Some (w', b) → consistent w'.
Proof.
  intros Hcons. unfold unschedule.
  destruct (Legacy.unschedule id (core w)) as [[c b']|] eqn:Hu; [|done].
  simpl. intros [= <- <-].
  apply legacy_unschedule_cases in Hu as (key & _ & _ & _ & ->).
  by apply drop_consistent.
Qed.

(** The callback of a timer: the handler of the timer is called, and the
    identity deleted is the one scheduled with this timer. *)
Lemma fire_cases h now w w' :
  consistent w →
  fire h now w = Some w' →
  ∃ handler due id,
    Legacy.armed (core w) !! h = Some (handler, due) ∧ due ≤ now ∧
    Legacy.scheduled (core w) !! id = Some h ∧ bound w !! h = Some id ∧
    w' = World (Legacy.State (delete id (Legacy.scheduled (core w)))
                  (delete h (Legacy.armed (core w)))
                  (Legacy.next_handle (core w)))
           (bound w) (listeners w) (calls w ++ [handler]).
Proof.
  intros [Har Hb _]. unfold fire.
  destruct (Legacy.armed (core w) !! h) as [[handler due]|] eqn:Hh; [|done].
  simpl. destruct (bound w !! h) as [id|] eqn:Hid; [|done]. simpl.
  destruct (due <=? now) eqn:Hdue; [|done]. intros [= <-].
  exists handler, due, id. split_and!; [done | lia | | done | done].
  destruct (proj1 (Har h)) as [id' Hid']; [eauto|].
  pose proof (Hb _ _ Hid'). congruence.
Qed.

Lemma fire_consistent h now w w' :
  consistent w → fire h now w = Some w' → consistent w'.
Proof.
  intros Hcons Hfire.
  destruct (fire_cases _ _ _ _ Hcons Hfire) as (handler & due & id & _ & _ & Hid & _ & ->).
  pose proof (drop_consistent w id (listeners w) (calls w ++ [handler]) Hcons)
    as Hdrop.
  by rewrite Hid in Hdrop.
Qed.

Lemma step_consistent now a w w' :
  consistent w → step now a w = Some w' → consistent w'.
Proof.
  intros Hcons. destruct a as [date id handler fresh|id|h|handler|]; simpl.
  - destruct (schedule date id handler fresh now w) as [[w1 k]|] eqn:Hs; [|done].
    simpl. intros [= <-]. by eapply schedule_consistent.
  - destruct (unschedule id w) as [[w1 b]|] eqn:Hu; [|done].
    simpl. intros [= <-]. by eapply unschedule_consistent.
  - by apply fire_consistent.
  - intros [= <-]. by destruct Hcons.
  - intros [= <-]. by destruct Hcons.
Qed.

Lemma reachable_consistent w : reachable w → consistent w.
Proof.
  induction 1 as [|w now a w' _ IH Hstep].
  - split; simpl.
    + intros h. rewrite lookup_empty. split; [by intros []|].
      intros [id Hid]. by rewrite lookup_empty in Hid.
    + intros id h Hid. by rewrite lookup_empty in Hid.
    + intros h. rewrite lookup_empty. by intros [].
  - by eapply step_consistent.
Qed.

Lemma legacy_run_reachable script w w' :
  reachable w → run script w = Some w' → reachable w'.
Proof.
  revert w. induction script as [|[now a] script IH]; intros w Hreach; simpl.
  - by intros [= <-].
  - destruct (step now a w) as [w1|] eqn:Hstep; simpl; [|done].
    apply IH. by eapply reachable_step.
Qed.

Lemma legacy_script_reachable script :
  run script empty ≠ None → reachable (after_script script).
Proof.
  unfold after_script.
  destruct (run script empty) as [w|] eqn:Hrun; [|done].
  intros _. eapply legacy_run_reachable; [apply reachable_empty | done].
Qed.

(** X14: in a run of the older scheduler, the timers that are armed are
    exactly the timers recorded for the scheduled identities, each bound
    to the identity it is recorded for: an identity has one armed timer
    and no other timer is armed. *)
Theorem one_timer_for_each_identity w :
  reachable w →
  consistent w ∧
  ∀ h1 h2 id,
    is_Some (Legacy.armed (core w) !! h1) →
    is_Some (Legacy.armed (core w) !! h2) →
    bound w !! h1 = Some id → bound w !! h2 = Some id → h1 = h2.
Proof.
  intros Hcons%reachable_consistent. split; [done|].
  destruct Hcons as [Har Hb _].
  intros h1 h2 id [id1 H1]%Har [id2 H2]%Har Hb1 Hb2.
  pose proof (Hb _ _ H1). pose proof (Hb _ _ H2). congruence.
Qed.

Lemma one_timer_for_each_identity_witness :
  reachable (after_script busy_script) ∧
  consistent (after_script busy_script).
Proof.
  assert (reachable (after_script busy_script)) as H
    by (apply legacy_script_reachable; vm_compute; discriminate).
  destruct (one_timer_for_each_identity _ H) as [Hcons _].
  split; [exact H | exact Hcons].
Defined.

(** X15: in a run of the older scheduler, [unschedule] of an identity returns
    [true], calls no handler and leaves the identity unscheduled; no timer
    set for the identity can fire afterwards. *)
Theorem unschedule_disarms w id w' b :
  reachable w →
  unschedule id w = Some (w', b) →
  ∃ key, id = VStr key ∧ key ≠ EmptyString ∧ b = true ∧
    Legacy.scheduled (core w') = delete key (Legacy.scheduled (core w)) ∧
    calls w' = calls w ∧
    ∀ h now, bound w !! h = Some key → fire h now w' = None.
Proof.
  intros Hcons%reachable_consistent Hun.
  pose proof (unschedule_consistent _ _ _ _ Hcons Hun) as [Har' Hb' _].
  revert Hun Har' Hb'. unfold unschedule.
  destruct (Legacy.unschedule id (core w)) as [[c b']|] eqn:Hu; [|done].
  simpl. intros [= <- <-]. simpl. intros Har' Hb'.
  apply legacy_unschedule_cases in Hu as (key & -> & Hkey & -> & ->).
  exists key. split_and!; try done.
  intros h now Hh. unfold fire. simpl in *.
  set (armed' := match Legacy.scheduled (core w) !! key with
                 | Some h0 => delete h0 (Legacy.armed (core w))
                 | None => Legacy.armed (core w)
                 end) in *.
  destruct (armed' !! h) as [x|] eqn:Hx; [|done].
  exfalso. destruct (proj1 (Har' h)) as [id' Hid']; [eauto|].
  pose proof (Hb' _ _ Hid') as Hbound.
  assert (id' = key) as -> by congruence.
  by rewrite lookup_delete_eq in Hid'.
Qed.

Lemma unschedule_disarms_witness :
  reachable (after_script (take 3 busy_script)) ∧
  unschedule (VStr "b") (after_script (take 3 busy_script))
  = Some (after_script (take 4 busy_script), true) ∧
  fire 1%nat 200 (after_script (take 4 busy_script)) = None.
Proof.
  assert (reachable (after_script (take 3 busy_script))) as H
    by (apply legacy_script_reachable; vm_compute; discriminate).
  assert (unschedule (VStr "b") (after_script (take 3 busy_script))
          = Some (after_script (take 4 busy_script), true)) as Hun
    by (vm_compute; reflexivity).
  destruct (unschedule_disarms _ _ _ _ H Hun)
    as (key & [= <-] & _ & _ & _ & _ & Hfire).
  split_and!; [exact H | exact Hun |].
  apply Hfire. vm_compute. reflexivity.
Defined.

(** X16: in a run of the older scheduler, a timer that fires was due, calls its
    handler once and deletes the identity that was scheduled with this very
    timer; it sets no timer, and the same timer cannot fire again. *)
Theorem fired_timer_frees_its_identity w h now w' :
  reachable w →
  fire h now w = Some w' →
  ∃ handler due id,
    Legacy.armed (core w) !! h = Some (handler, due) ∧ due ≤ now ∧
    Legacy.scheduled (core w) !! id = Some h ∧
    calls w' = calls w ++ [handler] ∧
    Legacy.scheduled (core w') = delete id (Legacy.scheduled (core w)) ∧
    Legacy.armed (core w') = delete h (Legacy.armed (core w)) ∧
    ∀ now', fire h now' w' = None.
Proof.
  intros Hcons%reachable_consistent Hfire.
  destruct (fire_cases _ _ _ _ Hcons Hfire)
    as (handler & due & id & Hh & Hdue & Hid & _ & ->).
  exists handler, due, id. simpl. split_and!; try done.
  intros now'. unfold fire. simpl. by rewrite lookup_delete_eq.
Qed.

Lemma fired_timer_frees_its_identity_witness :
  reachable (after_script (take 4 busy_script)) ∧
  fire 2%nat 300 (after_script (take 4 busy_script))
  = Some (after_script busy_script) ∧
  ∀ now', fire 2%nat now' (after_script busy_script) = None.
Proof.
  assert (reachable (after_script (take 4 busy_script))) as H
    by (apply legacy_script_reachable; vm_compute; discriminate).
  assert (fire 2%nat 300 (after_script (take 4 busy_script))
          = Some (after_script busy_script)) as Hfire
    by (vm_compute; reflexivity).
  destruct (fired_timer_frees_its_identity _ _ _ _ H Hfire)
    as (handler & due & id & _ & _ & _ & _ & _ & _ & Hnever).
  split_and!; [exact H | exact Hfire | exact Hnever].
Defined.

End LegacyTheory.
